(** * Knative Serving activator: a shallow embedding of the request path

    The development follows the Go sources of the activator binary
    ([cmd/activator/main.go]), the header-pruning reverse proxy
    ([pkg/http]) and the configuration store the activator attaches to
    request contexts (package [config]).
    Each Go package the development touches gets a module of its own. *)

From Stdlib Require Import ZArith Lia.
From stdpp Require Import gmap strings list fin_maps.

Local Open Scope Z_scope.

(** ** Go preliminaries *)

(** A Go [error] value built by [errors.New]; the [nil] error is [None] of
    [option error]. *)
Inductive error : Type :=
  | errorString (msg : string).

(** [int64] arithmetic wraps around; [wrap64] maps an integer to its
    two's-complement representative. *)
Definition wrap64 (z : Z) : Z := (z + 2 ^ 63) mod 2 ^ 64 - 2 ^ 63.

Definition int64_ok (z : Z) : Prop := - 2 ^ 63 <= z < 2 ^ 63.

(** ** [pkg/http]: the header-pruning reverse proxy *)

Module Proxy.

(** [net/http.Header] is a [map[string][]string]. *)
Abbreviation Header := (gmap string (list string)).

(** The fields of [net/http.Request] the director writes. *)
Record URL : Type := mkURL { Scheme : string; URLHost : string }.

Record Request : Type := mkRequest {
  ReqURL : URL;
  Host : string;
  ReqHeader : Header;
}.

(** NoHostOverride signifies that no host overriding should be done. *)
Definition NoHostOverride : string := "".

Section director.
(** [textproto.CanonicalMIMEHeaderKey] of the Go standard library and the
    header name [netheader.PassthroughLoadbalancingKey] of
    knative.dev/networking are taken as given. *)
Variable CanonicalMIMEHeaderKey : string → string.
Variable PassthroughLoadbalancingKey : string.

(** [Header.Add]: append to the values stored under the canonical key. *)
Definition Header_Add (h : Header) (key value : string) : Header :=
  let k := CanonicalMIMEHeaderKey key in
  <[k := default [] (h !! k) ++ [value]]> h.

(** [Header.Del]: drop the entry of the canonical key. *)
Definition Header_Del (h : Header) (key : string) : Header :=
  delete (CanonicalMIMEHeaderKey key) h.

(** [Header.Values]: the values under the canonical key, [nil] if none. *)
Definition Header_Values (h : Header) (key : string) : list string :=
  default [] (h !! CanonicalMIMEHeaderKey key).

(** The [Director] closure of the proxy that
    [NewHeaderPruningReverseProxy] returns.  [httputil.ReverseProxy] calls
    it on a clone of the inbound request whose header map is allocated. *)
Definition Director (target hostOverride : string)
    (headersToRemove : list string) (useHTTPS : bool)
    (req : Request) : Request :=
  let scheme := if useHTTPS then "https" else "http" in
  let url := {| Scheme := scheme; URLHost := target |} in
  let '(host, hdr) :=
    if decide (hostOverride ≠ NoHostOverride)
    then (hostOverride,
          Header_Add (ReqHeader req) PassthroughLoadbalancingKey "true")
    else (Host req, ReqHeader req) in
  let hdr := foldl Header_Del hdr headersToRemove in
  {| ReqURL := url; Host := host; ReqHeader := hdr |}.

End director.

End Proxy.

(** ** [cmd/activator]: the readiness check *)

Module Health.

(** The state the closure returned by [newHealthCheck] keeps ([once]) and
    the lines it hands to the logger. *)
Record state : Type := mkState { once_done : bool; logged : list string }.

Definition initial : state := {| once_done := false; logged := [] |}.

Definition errSIGTERM : error := errorString "received SIGTERM from kubelet".

(** One call of the closure.  [sigDone] tells whether [sigCtx.Done()] is
    closed, [status] is what [statSink.Status()] answers. *)
Definition healthCheck (sigDone : bool) (status : option error)
    (st : state) : option error * state :=
  if sigDone then
    let st' :=
      if once_done st then st
      else {| once_done := true;
              logged := logged st ++ ["Signal context canceled"] |} in
    (Some errSIGTERM, st')
  else
    (status, {| once_done := once_done st;
                logged := logged st ++ ["No signal yet."] |}).

End Health.

(** ** [cmd/activator]: the deadlines handed to the timeout handler *)

Module Timeouts.

(** [time.Second] in nanoseconds; a [time.Duration] is an [int64]. *)
Definition Second : Z := 1000000000.

(** [time.Duration(x) * time.Second] on [int64] operands. *)
Definition seconds (x : Z) : Z := wrap64 (x * Second).

(** The three timeout fields of [RevisionSpec], each an [*int64]. *)
Record RevisionSpec : Type := mkSpec {
  TimeoutSeconds : option Z;
  ResponseStartTimeoutSeconds : option Z;
  IdleTimeoutSeconds : option Z;
}.

Section timeouts.
(** The constants of [pkg/apis/config]. *)
Variables DefaultRevisionTimeoutSeconds
          DefaultRevisionResponseStartTimeoutSeconds
          DefaultRevisionIdleTimeoutSeconds : Z.

(** The closure passed to [handler.NewTimeoutHandler].  [rev] is
    [activatorhandler.RevisionFrom(r.Context())]; the result is [None]
    when the closure panics on the nil [TimeoutSeconds] pointer. *)
Definition timeoutFunc (rev : option RevisionSpec) : option (Z * Z * Z) :=
  match rev with
  | Some spec =>
      let responseStartTimeout :=
        match ResponseStartTimeoutSeconds spec with
        | Some s => seconds s
        | None => 0 * Second
        end in
      let idleTimeout :=
        match IdleTimeoutSeconds spec with
        | Some s => seconds s
        | None => 0 * Second
        end in
      match TimeoutSeconds spec with
      | Some t => Some (seconds t, responseStartTimeout, idleTimeout)
      | None => None
      end
  | None =>
      Some (DefaultRevisionTimeoutSeconds * Second,
            DefaultRevisionResponseStartTimeoutSeconds * Second,
            DefaultRevisionIdleTimeoutSeconds * Second)
  end.
End timeouts.

(** Seconds that fit a [time.Duration] convert without wrap-around. *)
Definition fits_duration (x : Z) : Prop :=
  - 9223372036 <= x <= 9223372036.

End Timeouts.

(** ** [cmd/activator]: start-up and drain of [main] *)

Module Main.

(** The environment [envconfig.Process] fills in. *)
Record config : Type := mkConfig {
  PodName : string;
  PodIP : string;
  MaxIdleProxyConns : Z;
  MaxIdleProxyConnsPerHost : Z;
}.

(** An [http.RoundTripper] built by knative.dev/pkg/network.  Every call of
    a constructor yields a new value; [tid] tells two of them apart. *)
Inductive transportKind : Type := AutoTransport | AutoTLSTransport.

Record transport : Type := mkTransport {
  tid : nat;
  kind : transportKind;
  maxIdle : Z;
  maxIdlePerHost : Z;
}.

(** The case taken by the [select] that waits for the drain. *)
Inductive wakeup : Type :=
  | SigCtxDone
  | ServerFailed (name : string).

(** What [main] does to the outside, in program order.  [Serve] is the [go]
    statement that runs [ListenAndServe] (or [ListenAndServeTLS]). *)
Inductive event : Type :=
  | NewTransport (t : transport)
  | ThrottlerRun (t : transport)
  | HandlerNew (t : transport) (tlsEnabled : bool)
  | Serve (name : string)
  | Log (msg : string)
  | Sleep (d : Z)
  | Shutdown (name : string).

Abbreviation trace := (list event).

Definition NewProxyAutoTransport (maxIdle maxIdlePerHost : Z) (tr : trace)
    : transport * trace :=
  let t := {| tid := length tr; kind := AutoTransport;
              maxIdle := maxIdle; maxIdlePerHost := maxIdlePerHost |} in
  (t, tr ++ [NewTransport t]).

Definition NewProxyAutoTLSTransport (maxIdle maxIdlePerHost : Z) (tr : trace)
    : transport * trace :=
  let t := {| tid := length tr; kind := AutoTLSTransport;
              maxIdle := maxIdle; maxIdlePerHost := maxIdlePerHost |} in
  (t, tr ++ [NewTransport t]).

(** An environment with the default sizes of the idle pools. *)
Definition exampleEnv : config :=
  {| PodName := "activator-0"; PodIP := "10.0.0.7";
     MaxIdleProxyConns := 1000; MaxIdleProxyConnsPerHost := 100 |}.

(** The keys of the [servers] map. *)
Definition servers : list string := ["http1"; "h2c"; "profile"].

Section main.
(** [pkgnet.DefaultDrainTimeout] and the reading of the network ConfigMap
    ([network.NewConfigFromConfigMap] followed by
    [SystemInternalTLSEnabled]) come from other modules. *)
Variable DefaultDrainTimeout : Z.
Variable SystemInternalTLSEnabled : gmap string string → bool.

(** The run of [main] in which start-up succeeds (no [Fatal] exit), from the
    creation of the transport on.  [startOrder] and [stopOrder] are the orders
    in which the two [range] loops visit the keys of [servers]. *)
Definition main (env : config) (networkCM : gmap string string)
    (startOrder stopOrder : list string) (w : wakeup) : trace :=
  let tr := [Log "Starting the knative activator"] in
  let '(transport, tr) :=
    NewProxyAutoTransport (MaxIdleProxyConns env)
      (MaxIdleProxyConnsPerHost env) tr in
  let tlsEnabled := SystemInternalTLSEnabled networkCM in
  let '(transport, tr) :=
    if tlsEnabled
    then NewProxyAutoTLSTransport (MaxIdleProxyConns env)
           (MaxIdleProxyConnsPerHost env)
           (tr ++ [Log "Knative system-internal-tls is enabled"])
    else (transport, tr) in
  let tr := tr ++ [ThrottlerRun transport] in
  let tr := tr ++ [HandlerNew transport tlsEnabled] in
  let tr := tr ++ (Serve <$> startOrder) in
  let tr := if tlsEnabled then tr ++ [Serve "https"] else tr in
  let tr := tr ++ [Log match w with
                       | SigCtxDone => "Received SIGTERM"
                       | ServerFailed _ => "Failed to run HTTP server"
                       end] in
  let tr := tr ++ [Log "Sleeping to allow K8s propagation of non-ready state"] in
  let tr := tr ++ [Sleep DefaultDrainTimeout] in
  let tr := tr ++ [Log "Done waiting, shutting down servers."] in
  let tr := tr ++ (Shutdown <$> stopOrder) in
  tr ++ [Log "Servers shutdown."].
End main.

(** Projections of a trace. *)
Definition created (tr : trace) : list transport :=
  omap (λ e, match e with NewTransport t => Some t | _ => None end) tr.

Definition given_to_throttler (tr : trace) : list transport :=
  omap (λ e, match e with ThrottlerRun t => Some t | _ => None end) tr.

Definition given_to_handler (tr : trace) : list transport :=
  omap (λ e, match e with HandlerNew t _ => Some t | _ => None end) tr.

Definition served (tr : trace) : list string :=
  omap (λ e, match e with Serve n => Some n | _ => None end) tr.

Definition slept (tr : trace) : list Z :=
  omap (λ e, match e with Sleep d => Some d | _ => None end) tr.

Definition shut_down (tr : trace) : list string :=
  omap (λ e, match e with Shutdown n => Some n | _ => None end) tr.

End Main.

(** ** The probe path and the data path *)

Module Paths.

(** Modelled from the spec: what a component does with transports: it
    sends a round trip to [dest] through one, or constructs one of its
    own.  The throttler and the proxy handler are not among the
    sources. *)
Inductive action : Type :=
  | RoundTrip (t : Main.transport) (dest : string)
  | Construct (t : Main.transport).

(** Modelled from the spec: the probe path.  The throttler's [Run] probes
    the pods through the transport it was handed, by reference. *)
Definition Throttler_Run (t : Main.transport) (pods : list string)
    : list action :=
  RoundTrip t <$> pods.

(** Modelled from the spec: the data path.  The proxy handler is a reverse
    proxy around the transport it was handed and forwards every request
    through it. *)
Definition ProxyHandler (t : Main.transport) (requests : list string)
    : list action :=
  RoundTrip t <$> requests.

(** Modelled from the spec: what happens in the process, an event of
    [main] or an action of one of the two components. *)
Inductive step : Type :=
  | OfMain (e : Main.event)
  | OfThrottler (a : action)
  | OfHandler (a : action).

(** Modelled from the spec: the process made of [main] and of the
    components it starts; the throttler probes [pods] once [main] has
    called its [Run], the handler forwards [requests] once [main] has
    built it. *)
Definition process (tr : Main.trace) (pods requests : list string)
    : list step :=
  tr ≫= λ e,
    OfMain e ::
    match e with
    | Main.ThrottlerRun t => OfThrottler <$> Throttler_Run t pods
    | Main.HandlerNew t _ => OfHandler <$> ProxyHandler t requests
    | _ => []
    end.

(** Projections of a process. *)
Definition constructed_by_main (p : list step) : list Main.transport :=
  omap (λ s, match s with
             | OfMain (Main.NewTransport t) => Some t
             | _ => None
             end) p.

Definition constructed_by_components (p : list step)
    : list Main.transport :=
  omap (λ s, match s with
             | OfThrottler (Construct t) | OfHandler (Construct t) => Some t
             | _ => None
             end) p.

Definition probed_through (p : list step) : list Main.transport :=
  omap (λ s, match s with
             | OfThrottler (RoundTrip t _) => Some t
             | _ => None
             end) p.

Definition proxied_through (p : list step) : list Main.transport :=
  omap (λ s, match s with
             | OfHandler (RoundTrip t _) => Some t
             | _ => None
             end) p.

End Paths.

(** ** The throttler's share of capacity *)

Module Capacity.

(** Modelled from the spec: integer ceiling of [a / b], the rounding the
    capacity formula names; the throttler ([pkg/activator/net]) is not among
    the sources. *)
Definition ceilDiv (a b : Z) : Z := (a + b - 1) / b.

(** Modelled from the spec: the number of activators a revision's capacity is
    divided among, [min(activatorCount, numActivators)], where
    [numActivators = 0] stands for all known activators. *)
Definition participating (activatorCount numActivators : Z) : Z :=
  if decide (numActivators = 0) then activatorCount
  else Z.min activatorCount numActivators.

(** Modelled from the spec: [localCapacity =
    ceil(containerConcurrency × podCount / min(activatorCount,
    numActivators))], clamped to [0] when [podCount = 0]. *)
Definition localCapacity
    (containerConcurrency podCount activatorCount numActivators : Z) : Z :=
  if decide (podCount = 0) then 0
  else ceilDiv (containerConcurrency * podCount)
         (participating activatorCount numActivators).

End Capacity.

(** ** The timeout handler *)

Module TimeoutHandler.

(** Modelled from the spec: the three independent deadlines of a request,
    here in milliseconds; [0] disables a deadline.  The handler
    ([pkg/http/handler]) is not among the sources. *)
Record deadlines : Type := mkDeadlines {
  timeout : Z;
  responseStartTimeout : Z;
  idleTimeout : Z;
}.

(** Modelled from the spec: what the client gets, a 504 written by the
    handler at the instant [at_ms], a response cut at [at_ms] after it had
    started, or the backend's whole response. *)
Inductive outcome : Type :=
  | GatewayTimeout (at_ms : Z)
  | Truncated (at_ms : Z)
  | Completed.

Definition StatusGatewayTimeout : Z := 504.

(** Modelled from the spec: a byte that passes through the handler, inbound
    (from the client, the request body) or outbound (to the client, the
    response, its header first), with the instant at which it passes. *)
Inductive traffic : Type :=
  | Inbound (at_ms : Z)
  | Outbound (at_ms : Z).

Definition instant (e : traffic) : Z :=
  match e with
  | Inbound t | Outbound t => t
  end.

Definition outbound (e : traffic) : bool :=
  match e with
  | Outbound _ => true
  | Inbound _ => false
  end.

(** The earlier of two optional instants. *)
Definition earlier (a b : option Z) : option Z :=
  match a, b with
  | Some x, Some y => Some (Z.min x y)
  | Some x, None => Some x
  | None, b => b
  end.

Definition armed (start bound : Z) : option Z :=
  if decide (0 < bound) then Some (start + bound) else None.

(** Modelled from the spec: the instant at which the first of the armed
    timers fires.  [timeout] and [responseStartTimeout] run from the entry
    of the request (instant [0]); the response-start timer is disarmed
    once the response has [started].  [idleTimeout] bounds the time with
    no inbound or outbound bytes: it runs from the [last] byte seen, in
    either direction.  Until a first byte has passed there is no silence
    between bytes to measure and the wait is bounded by the response-start
    timer alone: with [timeout] 10 s, [responseStartTimeout] 5 s and
    [idleTimeout] 3 s, a backend whose first byte comes after 6 s is
    answered 504 after 5 s. *)
Definition next_deadline (d : deadlines) (started : bool) (last : option Z)
    : option Z :=
  earlier (armed 0 (timeout d))
    (earlier (if started then None else armed 0 (responseStartTimeout d))
             (l ← last; armed l (idleTimeout d))).

(** Modelled from the spec: the handler races the timers against the
    bytes that pass, at the instants of [bytes], and against the backend's
    completion at [finish].  A timer that fires before any response byte
    was written yields 504; one that fires later cuts the response. *)
Fixpoint serve (d : deadlines) (started : bool) (last : option Z)
    (bytes : list traffic) (finish : Z) : outcome :=
  let fired (next : Z) : option Z :=
    match next_deadline d started last with
    | Some t => if decide (t < next) then Some t else None
    | None => None
    end in
  match bytes with
  | [] =>
      match fired finish with
      | Some t => if started then Truncated t else GatewayTimeout t
      | None => Completed
      end
  | e :: bytes' =>
      match fired (instant e) with
      | Some t => if started then Truncated t else GatewayTimeout t
      | None =>
          serve d (started || outbound e) (Some (instant e)) bytes' finish
      end
  end.

(** Modelled from the spec: timers start when the request enters the
    handler; nothing has been written and no byte has passed yet. *)
Definition ServeHTTP (d : deadlines) (bytes : list traffic) (finish : Z)
    : outcome :=
  serve d false None bytes finish.

(** Modelled from the spec: the status code the client sees, given the
    backend's; 200 to 5xx are proxied through from the backend. *)
Definition status (backend : Z) (o : outcome) : Z :=
  match o with
  | GatewayTimeout _ => StatusGatewayTimeout
  | Truncated _ | Completed => backend
  end.

(** The instant of the next byte, or of completion when there is none. *)
Definition next_instant (bytes : list traffic) (finish : Z) : Z :=
  match bytes with
  | [] => finish
  | e :: _ => instant e
  end.

(** The instant of the first response byte, or of completion when the
    response has none. *)
Fixpoint first_byte (bytes : list traffic) (finish : Z) : Z :=
  match bytes with
  | [] => finish
  | Outbound w :: _ => w
  | Inbound _ :: bytes' => first_byte bytes' finish
  end.

(** The backend that [sendRequestWithTimeout] drives in the end-to-end
    test, behind a GET without a body: it waits [initialSleep] before it
    writes its response and [sleep] more before it returns. *)
Definition timeout_app (initialSleep sleep : Z) : list traffic * Z :=
  ([Outbound initialSleep], initialSleep + sleep).

(** The backend of the timeout scenario of the spec: it waits
    [initialSleep] and then streams [n] bytes, one every [every]
    milliseconds. *)
Definition streaming_app (initialSleep every : Z) (n : nat)
    : list traffic * Z :=
  let at_ms (i : nat) := initialSleep + Z.of_nat i * every in
  (Outbound ∘ at_ms <$> seq 0 n, at_ms n).

(** The instants are in order: bytes pass one after the other, from
    [last] on, and the response completes after the last one. *)
Fixpoint chronological (last : Z) (bytes : list traffic) (finish : Z)
    : Prop :=
  match bytes with
  | [] => last <= finish
  | e :: bytes' => last <= instant e ∧ chronological (instant e) bytes' finish
  end.

(** No silence after a byte is longer than [idle]; [last] is the last byte
    seen, if any. *)
Fixpoint never_idle (idle : Z) (last : option Z) (bytes : list traffic)
    (finish : Z) : Prop :=
  match bytes with
  | [] => ∀ l, last = Some l → finish - l <= idle
  | e :: bytes' =>
      (∀ l, last = Some l → instant e - l <= idle)
      ∧ never_idle idle (Some (instant e)) bytes' finish
  end.

(** The backend responds within the three bounds: it completes within
    [timeout], sends its first byte within [responseStartTimeout] and no
    silence between bytes lasts longer than [idleTimeout]; a disabled
    bound asks for nothing. *)
Definition within_bounds (d : deadlines) (bytes : list traffic)
    (finish : Z) : Prop :=
  (0 < timeout d → finish <= timeout d)
  ∧ (0 < responseStartTimeout d →
       first_byte bytes finish <= responseStartTimeout d)
  ∧ (0 < idleTimeout d → never_idle (idleTimeout d) None bytes finish).

End TimeoutHandler.

(** ** The throttler's admission slots *)

Module Throttler.

(** Modelled from the spec: where a call of [Try] stands.  The throttler
    ([pkg/activator/net]) is not among the sources.  A call waits in the
    queue, holds a slot while [fn] runs, or has returned. *)
Inductive phase : Type :=
  | Queued
  | Holding
  | Returned (err : option error).

(** Modelled from the spec: one call of [Try], with the slots it was granted
    and gave back so far and the retries it used. *)
Record call : Type := mkCall {
  where_ : phase;
  acquired : nat;
  released : nat;
  retried : nat;
}.

(** Modelled from the spec: the state of one revision's throttler: its local
    capacity, the number of slots handed out, whether it is draining, the
    FIFO of waiting calls and every call of [Try] seen so far (a call is
    named by its position). *)
Record state : Type := mkState {
  capacity : nat;
  inflight : nat;
  draining : bool;
  queue : list nat;
  calls : list call;
}.

Definition initial : state :=
  {| capacity := 0; inflight := 0; draining := false;
     queue := []; calls := [] |}.

Definition ErrActivatorBusy : error := errorString "ErrActivatorBusy".

(** Modelled from the spec: what can happen to a revision's throttler.  A
    call enters [Try]; the head of the queue is granted a free slot; the
    context of a queued call fires; [fn] returns (with or without error) and
    the slot is released; [fn] reports a failed dial and the call releases
    its slot to acquire another one; capacity is recomputed; the drain
    begins. *)
Inductive action : Type :=
  | Enter
  | Grant
  | Cancel (c : nat) (ctxErr : error)
  | Return (c : nat) (err : option error)
  | Retry (c : nat)
  | SetCapacity (n : nat)
  | Drain.

Definition is_holding (c : call) : bool :=
  match where_ c with Holding => true | _ => false end.

(** The number of calls that hold a slot. *)
Definition holders (cs : list call) : nat :=
  length (filter (λ c, is_holding c = true) cs).

Section throttler.
(** The bound on re-acquisitions after a failed dial. *)
Variable maxProxyRetries : nat.

(** Modelled from the spec: one transition; [None] when the action is not
    enabled in the state. *)
Definition step (a : action) (s : state) : option state :=
  match a with
  | Enter =>
      if draining s then
        Some {| capacity := capacity s; inflight := inflight s;
                draining := draining s; queue := queue s;
                calls := calls s ++
                  [{| where_ := Returned (Some ErrActivatorBusy);
                      acquired := 0; released := 0; retried := 0 |}] |}
      else
        Some {| capacity := capacity s; inflight := inflight s;
                draining := draining s;
                queue := queue s ++ [length (calls s)];
                calls := calls s ++
                  [{| where_ := Queued;
                      acquired := 0; released := 0; retried := 0 |}] |}
  | Grant =>
      match queue s with
      | c :: q =>
          match calls s !! c with
          | Some cl =>
              match where_ cl with
              | Queued =>
                  if decide (inflight s < capacity s)%nat then
                    Some {| capacity := capacity s;
                            inflight := S (inflight s);
                            draining := draining s; queue := q;
                            calls := <[c := {| where_ := Holding;
                                               acquired := S (acquired cl);
                                               released := released cl;
                                               retried := retried cl |}]>
                                       (calls s) |}
                  else None
              | _ => None
              end
          | None => None
          end
      | [] => None
      end
  | Cancel c ctxErr =>
      match calls s !! c with
      | Some cl =>
          match where_ cl with
          | Queued =>
              Some {| capacity := capacity s; inflight := inflight s;
                      draining := draining s;
                      queue := filter (λ c', c' ≠ c) (queue s);
                      calls := <[c := {| where_ := Returned (Some ctxErr);
                                         acquired := acquired cl;
                                         released := released cl;
                                         retried := retried cl |}]>
                                 (calls s) |}
          | _ => None
          end
      | None => None
      end
  | Return c err =>
      match calls s !! c with
      | Some cl =>
          match where_ cl with
          | Holding =>
              Some {| capacity := capacity s;
                      inflight := pred (inflight s);
                      draining := draining s; queue := queue s;
                      calls := <[c := {| where_ := Returned err;
                                         acquired := acquired cl;
                                         released := S (released cl);
                                         retried := retried cl |}]>
                                 (calls s) |}
          | _ => None
          end
      | None => None
      end
  | Retry c =>
      match calls s !! c with
      | Some cl =>
          match where_ cl with
          | Holding =>
              if decide (retried cl < maxProxyRetries)%nat then
                Some {| capacity := capacity s;
                        inflight := pred (inflight s);
                        draining := draining s;
                        queue := queue s ++ [c];
                        calls := <[c := {| where_ := Queued;
                                           acquired := acquired cl;
                                           released := S (released cl);
                                           retried := S (retried cl) |}]>
                                   (calls s) |}
              else None
          | _ => None
          end
      | None => None
      end
  | SetCapacity n =>
      Some {| capacity := n; inflight := inflight s;
              draining := draining s; queue := queue s; calls := calls s |}
  | Drain =>
      Some {| capacity := capacity s; inflight := inflight s;
              draining := true; queue := queue s; calls := calls s |}
  end.

(** A run: the actions applied in order, [None] as soon as one of them is
    not enabled. *)
Fixpoint run (acts : list action) (s : state) : option state :=
  match acts with
  | [] => Some s
  | a :: acts' =>
      match step a s with
      | Some s' => run acts' s'
      | None => None
      end
  end.
End throttler.

(** A cold start with two callers: capacity appears, the first caller is
    served, the second gives up while it waits. *)
Definition example_run : list action :=
  [Enter; Enter; SetCapacity 1; Grant;
   Cancel 1 (errorString "context canceled"); Return 0 None].

(** The slots a call holds: granted and not yet given back. *)
Definition balanced (c : call) : Prop :=
  match where_ c with
  | Holding => acquired c = S (released c)
  | Queued | Returned _ => acquired c = released c
  end.

(** A call that returned [nil] ran [fn], hence was granted a slot. *)
Definition succeeded_with_slot (c : call) : Prop :=
  where_ c = Returned None → (1 ≤ acquired c)%nat.

(** A call that is waiting or has returned holds nothing; a call that never
    was granted a slot never released one. *)
Definition slot_invariant (s : state) : Prop :=
  inflight s = holders (calls s)
  ∧ Forall balanced (calls s)
  ∧ Forall succeeded_with_slot (calls s).

End Throttler.

(** ** Package [config]: the configuration attached to contexts *)

Module Config.

(** Addresses of heap objects. *)
Abbreviation loc := positive.

Section config.
(** The structs [apisconfig.Defaults] and [apisconfig.Features] are declared
    in files that are not among the sources; their values stay abstract. *)
Context {defaults features : Type}.

(** Config holds the collection of configurations that we attach to
    contexts: two pointers, [None] being [nil]. *)
Record Config : Type := mkConfig {
  Defaults : option loc;
  Features : option loc;
}.

(** The objects pointers lead to, one table per struct type. *)
Record heap : Type := mkHeap {
  configs : gmap loc Config;
  defaultses : gmap loc defaults;
  featureses : gmap loc features;
}.

(** What a [context.Context] carries: the [*Config] stored under [cfgKey{}]
    ([None] when nothing is stored, [Some None] for a stored [nil] pointer)
    and the [apisconfig.Config] that [ToContext] attaches next to it. *)
Record context : Type := mkContext {
  ctxConfig : option (option loc);
  ctxApis : option Config;
}.

Definition Background : context := {| ctxConfig := None; ctxApis := None |}.

Definition empty_heap : heap :=
  {| configs := ∅; defaultses := ∅; featureses := ∅ |}.

(** [&Config{...}] *)
Definition new_config (c : Config) (h : heap) : loc * heap :=
  let l := fresh (dom (configs h)) in
  (l, {| configs := <[l := c]> (configs h);
         defaultses := defaultses h; featureses := featureses h |}).

Definition new_defaults (v : defaults) (h : heap) : loc * heap :=
  let l := fresh (dom (defaultses h)) in
  (l, {| configs := configs h;
         defaultses := <[l := v]> (defaultses h);
         featureses := featureses h |}).

Definition new_features (v : features) (h : heap) : loc * heap :=
  let l := fresh (dom (featureses h)) in
  (l, {| configs := configs h; defaultses := defaultses h;
         featureses := <[l := v]> (featureses h) |}).

(** [cfg.Defaults = p] and [cfg.Features = p]; [None] on a pointer that
    leads nowhere. *)
Definition set_Defaults (cfg : loc) (p : option loc) (h : heap)
    : option heap :=
  c ← configs h !! cfg;
  Some {| configs := <[cfg := {| Defaults := p; Features := Features c |}]>
                       (configs h);
          defaultses := defaultses h; featureses := featureses h |}.

Definition set_Features (cfg : loc) (p : option loc) (h : heap)
    : option heap :=
  c ← configs h !! cfg;
  Some {| configs := <[cfg := {| Defaults := Defaults c; Features := p |}]>
                       (configs h);
          defaultses := defaultses h; featureses := featureses h |}.

(** FromContext extracts a Config from the provided context. *)
Definition FromContext (ctx : context) : option loc :=
  match ctxConfig ctx with
  | Some x => x
  | None => None
  end.

(** What [apisconfig.NewDefaultsConfigFromMap(nil)] and
    [apisconfig.NewFeaturesConfigFromMap(nil)] build: the struct, or [None]
    when the constructor fails and hands back a [nil] pointer. *)
Variable defaultDefaults : option defaults.
Variable defaultFeatures : option features.

Definition NewDefaultsConfigFromMap_nil (h : heap) : option loc * heap :=
  match defaultDefaults with
  | Some v => let '(l, h) := new_defaults v h in (Some l, h)
  | None => (None, h)
  end.

Definition NewFeaturesConfigFromMap_nil (h : heap) : option loc * heap :=
  match defaultFeatures with
  | Some v => let '(l, h) := new_features v h in (Some l, h)
  | None => (None, h)
  end.

(** [if cfg.Defaults == nil { cfg.Defaults, _ =
    apisconfig.NewDefaultsConfigFromMap(nil) }] *)
Definition ensure_Defaults (cfg : loc) (h : heap) : option heap :=
  c ← configs h !! cfg;
  match Defaults c with
  | None => let '(p, h) := NewDefaultsConfigFromMap_nil h in
            set_Defaults cfg p h
  | Some _ => Some h
  end.

(** [if cfg.Features == nil { cfg.Features, _ =
    apisconfig.NewFeaturesConfigFromMap(nil) }] *)
Definition ensure_Features (cfg : loc) (h : heap) : option heap :=
  c ← configs h !! cfg;
  match Features c with
  | None => let '(p, h) := NewFeaturesConfigFromMap_nil h in
            set_Features cfg p h
  | Some _ => Some h
  end.

(** FromContextOrDefaults is like FromContext, but when no Config is
    attached it returns a Config populated with the defaults for each of the
    Config fields.  The result is the returned [*Config] and the heap the
    call leaves. *)
Definition FromContextOrDefaults (ctx : context) (h : heap)
    : option (option loc * heap) :=
  let '(cfg, h) :=
    match FromContext ctx with
    | Some l => (l, h)
    | None => new_config {| Defaults := None; Features := None |} h
    end in
  h ← ensure_Defaults cfg h;
  h ← ensure_Features cfg h;
  Some (Some cfg, h).

(** ToContext attaches the provided Config to the provided context. *)
Definition ToContext (ctx : context) (c : option loc) (h : heap)
    : option context :=
  match c with
  | Some l =>
      cv ← configs h !! l;
      Some {| ctxConfig := Some c;
              ctxApis := Some {| Defaults := Defaults cv;
                                 Features := Features cv |} |}
  | None => Some {| ctxConfig := Some c; ctxApis := ctxApis ctx |}
  end.

(** The dynamic type of a value kept by [configmap.UntypedStore]. *)
Inductive value : Type :=
  | VDefaults (p : option loc)
  | VFeatures (p : option loc)
  | VOther.

(** Store is a typed wrapper around configmap.Untyped store. *)
Abbreviation Store := (gmap string value).

(** [apisconfig.DefaultsConfigName] and [apisconfig.FeaturesConfigName]. *)
Variable DefaultsConfigName : string.
Variable FeaturesConfigName : string.

Definition UntypedLoad (s : Store) (name : string) : option value := s !! name.

(** Modelled from the spec: the generated [DeepCopy] of [*Defaults], which
    is not among the sources, builds a new object with the same contents;
    [nil] copies to [nil]. *)
Definition Defaults_DeepCopy (p : option loc) (h : heap)
    : option (option loc * heap) :=
  match p with
  | Some l =>
      v ← defaultses h !! l;
      let '(l', h) := new_defaults v h in Some (Some l', h)
  | None => Some (None, h)
  end.

(** Modelled from the spec: the generated [DeepCopy] of [*Features]. *)
Definition Features_DeepCopy (p : option loc) (h : heap)
    : option (option loc * heap) :=
  match p with
  | Some l =>
      v ← featureses h !! l;
      let '(l', h) := new_features v h in Some (Some l', h)
  | None => Some (None, h)
  end.

(** The first [if] of [Load]: when the value stored under
    [DefaultsConfigName] is a [Defaults] pointer,
    [cfg.Defaults = def.DeepCopy()]. *)
Definition load_Defaults (s : Store) (cfg : loc) (h : heap) : option heap :=
  match UntypedLoad s DefaultsConfigName with
  | Some (VDefaults def) =>
      '(p, h) ← Defaults_DeepCopy def h; set_Defaults cfg p h
  | _ => Some h
  end.

(** The second [if] of [Load]: when the value stored under
    [FeaturesConfigName] is a [Features] pointer,
    [cfg.Features = feat.DeepCopy()]. *)
Definition load_Features (s : Store) (cfg : loc) (h : heap) : option heap :=
  match UntypedLoad s FeaturesConfigName with
  | Some (VFeatures feat) =>
      '(p, h) ← Features_DeepCopy feat h; set_Features cfg p h
  | _ => Some h
  end.

(** Load creates a Config from the current config state of the Store. *)
Definition Load (s : Store) (h : heap) : option (loc * heap) :=
  let '(cfg, h) := new_config {| Defaults := None; Features := None |} h in
  h ← load_Defaults s cfg h;
  h ← load_Features s cfg h;
  Some (cfg, h).

(** ToContext attaches the current Config state to the provided context. *)
Definition Store_ToContext (s : Store) (ctx : context) (h : heap)
    : option (context * heap) :=
  '(cfg, h) ← Load s h;
  ctx ← ToContext ctx (Some cfg) h;
  Some (ctx, h).

(** What is seen through a [*Config]: the contents of the two objects its
    fields point to. *)
Definition observe (cfg : loc) (h : heap)
    : option (option defaults * option features) :=
  c ← configs h !! cfg;
  Some (Defaults c ≫= (λ l, defaultses h !! l),
        Features c ≫= (λ l, featureses h !! l)).

(** What is seen through the [apisconfig.Config] of a context. *)
Definition observe_apis (ctx : context) (h : heap)
    : option (option defaults * option features) :=
  c ← ctxApis ctx;
  Some (Defaults c ≫= (λ l, defaultses h !! l),
        Features c ≫= (λ l, featureses h !! l)).

(** The writes a caller can make through a loaded [*Config]: assign one of
    its two fields, or overwrite the object one of them pointed to when
    [Load] returned. *)
Inductive mutation : Type :=
  | AssignDefaults (p : option loc)
  | AssignFeatures (p : option loc)
  | WriteDefaults (v : defaults)
  | WriteFeatures (v : features).

Definition mutate (cfg : loc) (target : Config) (h : heap) (m : mutation)
    : heap :=
  match m with
  | AssignDefaults p => default h (set_Defaults cfg p h)
  | AssignFeatures p => default h (set_Features cfg p h)
  | WriteDefaults v =>
      match Defaults target with
      | Some l => {| configs := configs h;
                     defaultses := <[l := v]> (defaultses h);
                     featureses := featureses h |}
      | None => h
      end
  | WriteFeatures v =>
      match Features target with
      | Some l => {| configs := configs h; defaultses := defaultses h;
                     featureses := <[l := v]> (featureses h) |}
      | None => h
      end
  end.

(** The pointers the store keeps lead to objects. *)
Definition store_ok (s : Store) (h : heap) : Prop :=
  (∀ l, s !! DefaultsConfigName = Some (VDefaults (Some l)) →
        is_Some (defaultses h !! l))
  ∧ (∀ l, s !! FeaturesConfigName = Some (VFeatures (Some l)) →
          is_Some (featureses h !! l)).

(** The contents of the store's own objects. *)
Definition stored (s : Store) (h : heap)
    : option defaults * option features :=
  (match s !! DefaultsConfigName with
   | Some (VDefaults (Some l)) => defaultses h !! l
   | _ => None
   end,
   match s !! FeaturesConfigName with
   | Some (VFeatures (Some l)) => featureses h !! l
   | _ => None
   end).
End config.

(** A store that holds a [Defaults] object (here a number) and no
    [Features]. *)
Definition example_store : gmap string value :=
  {[ "config-defaults" := VDefaults (Some 1%positive) ]}.

Definition example_heap : @heap Z unit :=
  {| configs := ∅; defaultses := {[ 1%positive := 7 ]}; featureses := ∅ |}.

End Config.

(** ** [cmd/activator]: the readiness check over the life of the process *)

Module Probes.

(** The closure is called once per probe.  Each call finds the signal
    context done or not and gets an answer from the stat sink; the closure
    keeps its [once] and the logger its lines from one call to the next. *)
Fixpoint healthChecks (obs : list (bool * option error)) (st : Health.state)
    : list (option error) * Health.state :=
  match obs with
  | [] => ([], st)
  | (sigDone, status) :: obs' =>
      let '(r, st) := Health.healthCheck sigDone status st in
      let '(rs, st) := healthChecks obs' st in
      (r :: rs, st)
  end.

(** How often the logger was told of the cancelled signal context. *)
Definition canceled_lines (st : Health.state) : nat :=
  length (filter (λ l, l = "Signal context canceled") (Health.logged st)).

End Probes.

(** ** [cmd/activator]: what [main] wires together *)

Module Wiring.

(** The flag [tlsEnabled] that [activatorhandler.New] is given. *)
Definition handler_flags (tr : Main.trace) : list bool :=
  omap (λ e, match e with Main.HandlerNew _ b => Some b | _ => None end) tr.

End Wiring.

(** ** [test/conformance]: checks on the objects of a Service *)

Module Conformance.

(** A Go [map[string]string] read at a key: the zero value when the key is
    missing. *)
Definition at_key (m : gmap string string) (k : string) : string :=
  default "" (m !! k).

Section annotations.
(** [serving.CreatorAnnotation] and [serving.UpdaterAnnotation]. *)
Variable CreatorAnnotation : string.
Variable UpdaterAnnotation : string.

(** One of the three loops of [validateAnnotations]: the error of the first
    key whose annotation is empty; [who] is the word the message starts
    with. *)
Fixpoint first_empty (who : string) (anns : gmap string string)
    (keys : list string) : option error :=
  match keys with
  | [] => None
  | a :: keys' =>
      if decide (at_key anns a = "")
      then Some (errorString
                   (who +:+ " expected " +:+ a +:+
                    " annotation to be set, but was empty"))
      else first_empty who anns keys'
  end.

(** [validateAnnotations], on the annotations of the Service, the Route and
    the Configuration of [objs]. *)
Definition validateAnnotations (service route config : gmap string string)
    (extraKeys : list string) : option error :=
  let keys := [CreatorAnnotation; UpdaterAnnotation] ++ extraKeys in
  match first_empty "service" service keys with
  | Some err => Some err
  | None =>
      match first_empty "route" route keys with
      | Some err => Some err
      | None => first_empty "config" config keys
      end
  end.
End annotations.

(** The two ways the tag check of [validateDomains] fails; the formatted
    messages carry the tag, or the map of the tags left over. *)
Inductive tagError {U : Type} : Type :=
  | NoSubdomain (tag : string)
  | UnexpectedTags (left_over : gmap string U).
Arguments tagError : clear implicits.

Section domains.
(** The URLs of traffic targets, [*url.URL]. *)
Context {U : Type}.

(** A [tagExpectation]. *)
Record tagExpectation : Type := mkTagExpectation {
  tag : string;
  expectedResponse : string;
}.

(** The first loop of [validateDomains]: the URL of every tag of the
    service status, a later target replacing an earlier one of the same
    tag. *)
Definition tagToTraffic (traffic : list (string * U)) : gmap string U :=
  foldl (λ m t, <[t.1 := t.2]> m) ∅ traffic.

(** The second loop: every expected tag takes its URL out of the map. *)
Fixpoint take_subdomains (m : gmap string U) (pairs : list tagExpectation)
    : tagError U + (list U * gmap string U) :=
  match pairs with
  | [] => inr ([], m)
  | exp :: pairs' =>
      match m !! tag exp with
      | None => inl (NoSubdomain (tag exp))
      | Some url =>
          match take_subdomains (delete (tag exp) m) pairs' with
          | inl err => inl err
          | inr (urls, m') => inr (url :: urls, m')
          end
      end
  end.

(** [validateDomains] up to the point where it starts to send requests:
    the subdomains it is going to probe, one per expected tag, or the error
    it returns at once. *)
Definition subdomains (traffic : list (string * U))
    (tagExpectationPairs : list tagExpectation) : tagError U + list U :=
  match take_subdomains (tagToTraffic traffic) tagExpectationPairs with
  | inl err => inl err
  | inr (urls, left_over) =>
      if decide (size left_over ≠ 0%nat) then inl (UnexpectedTags left_over)
      else inr urls
  end.
End domains.

End Conformance.

(** ** Package [config]: sample contexts and heaps *)

Module ConfigExamples.

(** A heap with one Config whose two fields are [nil], and a context that
    carries it. *)
Definition attached_heap : @Config.heap Z unit :=
  {| Config.configs :=
       {[ 1%positive := {| Config.Defaults := None;
                           Config.Features := None |} ]};
     Config.defaultses := ∅; Config.featureses := ∅ |}.

Definition attached_ctx : Config.context :=
  {| Config.ctxConfig := Some (Some 1%positive); Config.ctxApis := None |}.

End ConfigExamples.

(** * Properties *)

(** ** Machine integers *)

Lemma wrap64_id z : int64_ok z → wrap64 z = z.
Proof.
  unfold int64_ok, wrap64. intros Hz.
  rewrite Z.mod_small by lia. lia.
Qed.

Lemma wrap64_range z : int64_ok (wrap64 z).
Proof.
  unfold int64_ok, wrap64.
  pose proof (Z.mod_pos_bound (z + 2 ^ 63) (2 ^ 64) ltac:(lia)). lia.
Qed.

(** ** The director of the header-pruning proxy *)

Section proxy_facts.
Import Proxy.
Variable canon : string → string.
Variable passthrough : string.

Local Abbreviation Del := (Header_Del canon).
Local Abbreviation Add := (Header_Add canon).
Local Abbreviation Values := (Header_Values canon).

(** After the pruning loop a key is gone when the list names it (up to
    canonical form) and untouched otherwise. *)
Lemma prune_lookup (ks : list string) (h : Header) (k : string) :
  foldl Del h ks !! k = if decide (k ∈ canon <$> ks) then None else h !! k.
Proof.
  revert h. induction ks as [|a ks IH]; intros h; [done|].
  change (foldl Del h (a :: ks)) with (foldl Del (Del h a) ks).
  rewrite IH. unfold Header_Del. rewrite fmap_cons.
  destruct (decide (k = canon a)) as [->|Hne].
  - rewrite lookup_delete_eq.
    rewrite (decide_True (P := _ ∈ _ :: _)) by apply list_elem_of_here.
    by case_decide.
  - rewrite lookup_delete_ne by done.
    destruct (decide (k ∈ canon <$> ks)) as [Hin|Hin].
    + rewrite decide_True; [done | by apply list_elem_of_further].
    + rewrite decide_False; [done|].
      intros [?|?]%elem_of_cons; done.
Qed.

Lemma prune_values (ks : list string) (h : Header) (k : string) :
  Values (foldl Del h ks) k =
    if decide (canon k ∈ canon <$> ks) then [] else Values h k.
Proof. unfold Header_Values. rewrite prune_lookup. by case_decide. Qed.

Lemma Header_Add_values (h : Header) (key value k : string) :
  Values (Add h key value) k =
    if decide (canon k = canon key)
    then Values h key ++ [value] else Values h k.
Proof.
  unfold Header_Values, Header_Add. case_decide as Hk.
  - by rewrite Hk, lookup_insert_eq.
  - by rewrite lookup_insert_ne.
Qed.

(** C1.  The director of [NewHeaderPruningReverseProxy] sets the URL scheme
    to "https" exactly when [useHTTPS] holds and to "http" otherwise, sets the
    URL host to [target], and with a non-empty [hostOverride] replaces the
    request's Host by it and appends "true" to the passthrough-loadbalancing
    header; then it deletes every header the list [headersToRemove] names.
    The deletions come last: no header named in the list survives, the
    passthrough header included should the list name it, and every other
    header keeps its values. *)
Theorem director_rewrites_request
    (target hostOverride : string) (headersToRemove : list string)
    (useHTTPS : bool) (req : Request) :
  let out := Director canon passthrough target hostOverride
               headersToRemove useHTTPS req in
  (Scheme (ReqURL out) = "https" ↔ useHTTPS = true)
  ∧ (Scheme (ReqURL out) = "http" ↔ useHTTPS = false)
  ∧ URLHost (ReqURL out) = target
  ∧ (hostOverride ≠ "" →
       Host out = hostOverride
       ∧ Values (ReqHeader out) passthrough =
           if decide (canon passthrough ∈ canon <$> headersToRemove)
           then []
           else Values (ReqHeader req) passthrough ++ ["true"])
  ∧ (hostOverride = "" → Host out = Host req)
  ∧ (∀ h, h ∈ headersToRemove → Values (ReqHeader out) h = [])
  ∧ (∀ k, canon k ∉ canon <$> headersToRemove →
          hostOverride = "" ∨ canon k ≠ canon passthrough →
          Values (ReqHeader out) k = Values (ReqHeader req) k).
Proof.
  intros out. subst out. unfold Director, NoHostOverride.
  destruct (decide (hostOverride ≠ "")) as [Hov|Hov]; simpl; split_and!.
  - by destruct useHTTPS.
  - by destruct useHTTPS.
  - done.
  - intros _. split; [done|].
    rewrite prune_values. case_decide; [done|].
    rewrite Header_Add_values. by rewrite decide_True.
  - done.
  - intros h Hh. rewrite prune_values.
    rewrite decide_True; [done | by apply list_elem_of_fmap_2].
  - intros k Hk [?|Hne]; [done|]. rewrite prune_values.
    rewrite decide_False by done. rewrite Header_Add_values.
    by rewrite decide_False.
  - by destruct useHTTPS.
  - by destruct useHTTPS.
  - done.
  - done.
  - done.
  - intros h Hh. rewrite prune_values.
    rewrite decide_True; [done | by apply list_elem_of_fmap_2].
  - intros k Hk _. rewrite prune_values. by rewrite decide_False.
Qed.
End proxy_facts.

(** ** The readiness check *)

(** C2.  The check built by [newHealthCheck] answers [nil] if and only if
    the signal context is not cancelled and the stat sink's [Status()] is
    [nil]; in every other case it answers an error. *)
Theorem healthCheck_healthy_iff
    (sigDone : bool) (status : option error) (st : Health.state) :
  ((Health.healthCheck sigDone status st).1 = None
     ↔ sigDone = false ∧ status = None)
  ∧ (sigDone = true ∨ status ≠ None →
       is_Some (Health.healthCheck sigDone status st).1).
Proof.
  unfold Health.healthCheck. destruct sigDone; simpl.
  - split; [split; [done | by intros [? _]] | by eauto].
  - split; [split; [by intros -> | by intros [_ ->]] |].
    intros [?|Hs]; [done|]. destruct status; [by eauto | done].
Qed.

(** ** The deadlines of a request *)

Lemma seconds_exact x : Timeouts.fits_duration x →
  Timeouts.seconds x = x * Timeouts.Second.
Proof.
  unfold Timeouts.fits_duration, Timeouts.seconds, Timeouts.Second.
  intros Hx. apply wrap64_id. unfold int64_ok. lia.
Qed.

(** C6.  For a request whose context carries a revision with
    [TimeoutSeconds] set, the closure hands the timeout handler the
    revision's [TimeoutSeconds], [ResponseStartTimeoutSeconds] and
    [IdleTimeoutSeconds] multiplied by [time.Second] in [int64]
    arithmetic, a [nil] response-start or idle timeout giving [0]; the
    product is the number of seconds as a duration exactly when that
    number is at most 9223372036 in size, so for such a revision the three
    deadlines are exactly its three fields in nanoseconds.  Without a
    revision the closure hands over the three API defaults. *)
Theorem timeoutFunc_deadlines (dflt dfltStart dfltIdle : Z) :
  let f := Timeouts.timeoutFunc dflt dfltStart dfltIdle in
  (∀ t rs idle,
     f (Some (Timeouts.mkSpec (Some t) rs idle)) =
       Some (Timeouts.seconds t,
             from_option Timeouts.seconds 0 rs,
             from_option Timeouts.seconds 0 idle))
  ∧ (∀ x, Timeouts.seconds x = wrap64 (x * Timeouts.Second)
          ∧ int64_ok (Timeouts.seconds x)
          ∧ (Timeouts.seconds x = x * Timeouts.Second
             ↔ Timeouts.fits_duration x))
  ∧ (∀ t rs idle,
       Timeouts.fits_duration t →
       Timeouts.fits_duration (default 0 rs) →
       Timeouts.fits_duration (default 0 idle) →
       f (Some (Timeouts.mkSpec (Some t) rs idle)) =
         Some (t * Timeouts.Second,
               default 0 rs * Timeouts.Second,
               default 0 idle * Timeouts.Second))
  ∧ f None = Some (dflt * Timeouts.Second,
                   dfltStart * Timeouts.Second,
                   dfltIdle * Timeouts.Second).
Proof.
  intros f. subst f. split_and!.
  - intros t rs idle. unfold Timeouts.timeoutFunc. simpl.
    by destruct rs, idle.
  - intros x. split_and!.
    + done.
    + apply wrap64_range.
    + split; [|apply seconds_exact].
      intros Heq. pose proof (wrap64_range (x * Timeouts.Second)) as Hr.
      fold (Timeouts.seconds x) in Hr. rewrite Heq in Hr.
      unfold int64_ok, Timeouts.Second in Hr.
      unfold Timeouts.fits_duration. lia.
  - intros t rs idle Ht Hrs Hidle.
    unfold Timeouts.timeoutFunc. simpl.
    rewrite (seconds_exact t Ht).
    destruct rs as [r|], idle as [i|]; simpl in *;
      rewrite ?(seconds_exact _ Hrs), ?(seconds_exact _ Hidle); done.
  - done.
Qed.

(** A revision whose [TimeoutSeconds] is [nil] makes the closure panic on
    the dereference, whatever its other two fields hold, so no deadlines
    reach the timeout handler; and a [TimeoutSeconds] of 9223372037 is
    handed over as a negative duration. *)
Lemma timeoutFunc_nil_timeout_panics :
  Timeouts.timeoutFunc 300 0 0
    (Some (Timeouts.mkSpec None (Some 7) (Some 3))) = None
  ∧ Timeouts.timeoutFunc 300 0 0
      (Some (Timeouts.mkSpec (Some 9223372037) None None)) =
        Some (-9223372036709551616, 0, 0)
  ∧ -9223372036709551616 ≠ 9223372037 * Timeouts.Second.
Proof. split_and!; [reflexivity | by vm_compute | by vm_compute]. Qed.

(** ** Start-up and drain of [main] *)

Lemma omap_fmap_none {A B C} (f : B → option C) (g : A → B) (l : list A) :
  (∀ a, f (g a) = None) → omap f (g <$> l) = [].
Proof.
  intros Hfg. induction l as [|a l IH]; [done|].
  rewrite fmap_cons. simpl. rewrite Hfg. exact IH.
Qed.

Lemma omap_fmap_some {A B} (f : B → option A) (g : A → B) (l : list A) :
  (∀ a, f (g a) = Some a) → omap f (g <$> l) = l.
Proof.
  intros Hfg. induction l as [|a l IH]; [done|].
  rewrite fmap_cons. simpl. rewrite Hfg. f_equal. exact IH.
Qed.

Lemma cons_split {A} (x : A) (l pre rest : list A) :
  l = pre ++ rest → x :: l = (x :: pre) ++ rest.
Proof. by intros ->. Qed.

Lemma tail_split {A} (pre : list A) (x a b : A) (mid : list A) :
  (((pre ++ [x]) ++ [a]) ++ mid) ++ [b] = pre ++ x :: a :: mid ++ [b].
Proof. by rewrite <- !app_assoc. Qed.

Lemma omap_fmap_const {A B C} (f : B → option C) (g : A → B) (c : C)
    (l : list A) :
  (∀ x, f (g x) = Some c) → omap f (g <$> l) = (λ _, c) <$> l.
Proof.
  intros Hfg. induction l as [|x l IH]; [done|].
  rewrite !fmap_cons. cbn [omap list_omap]. rewrite Hfg. f_equal. exact IH.
Qed.

Lemma omap_bind {A B C} (f : A → list B) (g : B → option C) (l : list A) :
  omap g (l ≫= f) = l ≫= λ x, omap g (f x).
Proof.
  induction l as [|x l IH]; [done|].
  rewrite !bind_cons, omap_app. f_equal. exact IH.
Qed.

Lemma bind_fmap_nil {A B C} (f : B → list C) (g : A → B) (l : list A) :
  (∀ x, f (g x) = []) → (g <$> l) ≫= f = [].
Proof.
  intros Hfg. induction l as [|x l IH]; [done|].
  rewrite fmap_cons, bind_cons, Hfg. exact IH.
Qed.

(** What the components do in a process, read off the trace of [main]:
    they construct no transport, and probe and forward through the
    transports they were handed. *)
Lemma process_projections (tr : Main.trace) (pods requests : list string) :
  let p := Paths.process tr pods requests in
  Paths.constructed_by_components p = []
  ∧ Paths.constructed_by_main p = Main.created tr
  ∧ Paths.probed_through p =
      Main.given_to_throttler tr ≫= (λ t, (λ _, t) <$> pods)
  ∧ Paths.proxied_through p =
      Main.given_to_handler tr ≫= (λ t, (λ _, t) <$> requests).
Proof.
  simpl.
  unfold Paths.process, Paths.constructed_by_components,
    Paths.constructed_by_main, Paths.probed_through, Paths.proxied_through,
    Paths.Throttler_Run, Paths.ProxyHandler, Main.created,
    Main.given_to_throttler, Main.given_to_handler.
  induction tr as [|e tr (IH1 & IH2 & IH3 & IH4)]; [done|].
  rewrite bind_cons, !omap_app, IH1, IH2, IH3, IH4.
  destruct e; cbn [omap list_omap app];
    rewrite <- ?list_fmap_compose; rewrite ?bind_cons; try done;
    repeat match goal with
           | |- context [omap ?f (?g <$> ?l)] =>
               first [ rewrite (omap_fmap_none f g l)
                         by (intros ?; reflexivity)
                     | rewrite (omap_fmap_const f g t l)
                         by (intros ?; reflexivity) ]
           end; done.
Qed.

Section main_facts.
Import Main.
Variable DefaultDrainTimeout : Z.
Variable SystemInternalTLSEnabled : gmap string string → bool.

Local Abbreviation main := (Main.main DefaultDrainTimeout SystemInternalTLSEnabled).

(** The part of [main] that runs before the drain sleep. *)
Lemma main_split (env : config) (networkCM : gmap string string)
    (startOrder stopOrder : list string) (w : wakeup) :
  ∃ pre,
    main env networkCM startOrder stopOrder w =
      pre ++ Sleep DefaultDrainTimeout ::
        Log "Done waiting, shutting down servers." ::
        (Shutdown <$> stopOrder) ++ [Log "Servers shutdown."]
    ∧ slept pre = [] ∧ shut_down pre = []
    ∧ served pre =
        startOrder ++
          (if SystemInternalTLSEnabled networkCM then ["https"] else []).
Proof.
  unfold Main.main, NewProxyAutoTransport, NewProxyAutoTLSTransport.
  destruct (SystemInternalTLSEnabled networkCM); simpl;
    (eexists; split; [repeat eapply cons_split; apply tail_split|]);
    unfold slept, shut_down, served; simpl; rewrite !omap_app; simpl;
    rewrite !omap_fmap_none by done;
    rewrite ?omap_fmap_some by done; by rewrite ?app_nil_r.
Qed.

(** C3, amended.  Once the wait for the drain is over (SIGTERM, or a server
    that failed) [main] sleeps exactly once, for the fixed
    [pkgnet.DefaultDrainTimeout] whatever the configuration holds, and calls
    [Shutdown] only after that sleep, once on each server of the [servers]
    map (http1, h2c, profile); after SIGTERM the readiness check fails. *)
Theorem drain_sleeps_before_shutdown (env : config)
    (networkCM : gmap string string) (startOrder stopOrder : list string)
    (w : wakeup) :
  stopOrder ≡ₚ servers →
  let tr := main env networkCM startOrder stopOrder w in
  slept tr = [DefaultDrainTimeout]
  ∧ (∃ pre post,
       tr = pre ++ Sleep DefaultDrainTimeout :: post
       ∧ shut_down pre = []
       ∧ shut_down post = stopOrder)
  ∧ NoDup (shut_down tr)
  ∧ (∀ name, name ∈ shut_down tr ↔ name ∈ servers)
  ∧ (∀ status st, is_Some (Health.healthCheck true status st).1).
Proof.
  intros Hperm tr. subst tr.
  destruct (main_split env networkCM startOrder stopOrder w)
    as (pre & -> & Hslept & Hshut & _).
  assert (Hpost : shut_down
            (Log "Done waiting, shutting down servers." ::
             (Shutdown <$> stopOrder) ++ [Log "Servers shutdown."])
          = stopOrder).
  { unfold shut_down. simpl. rewrite omap_app. simpl.
    rewrite omap_fmap_some by done. by rewrite app_nil_r. }
  assert (Hall : shut_down
            (pre ++ Sleep DefaultDrainTimeout ::
             Log "Done waiting, shutting down servers." ::
             (Shutdown <$> stopOrder) ++ [Log "Servers shutdown."])
          = stopOrder).
  { unfold shut_down in *. rewrite omap_app, Hshut. simpl. exact Hpost. }
  split_and!.
  - unfold slept in *. rewrite omap_app, Hslept. simpl. rewrite omap_app. simpl.
    by rewrite omap_fmap_none.
  - eexists pre, _. split; [reflexivity|]. split; [exact Hshut|].
    unfold shut_down in *. simpl. rewrite omap_app. simpl.
    rewrite omap_fmap_some by done. by rewrite app_nil_r.
  - rewrite Hall, Hperm. apply (bool_decide_unpack _). by vm_compute.
  - intros name. by rewrite Hall, Hperm.
  - intros status st. simpl. by eauto.
Qed.

(** C8, amended.  [main] hands one and the same transport to the throttler's
    [Run] (the probe path) and to the activator handler (the data path).
    It is the only transport the process creates when system-internal TLS
    is off; when it is on, [main] first creates a plain transport, then a
    TLS transport that replaces it, and only the second is handed out.  No
    component constructs a transport of its own: every probe and every
    forwarded request goes through the transport [main] handed out, and
    the transports of the process are those [main] created. *)
Theorem transport_shared (env : config) (networkCM : gmap string string)
    (startOrder stopOrder : list string) (w : wakeup) :
  let tr := main env networkCM startOrder stopOrder w in
  ∃ t,
    given_to_throttler tr = [t]
    ∧ given_to_handler tr = [t]
    ∧ (SystemInternalTLSEnabled networkCM = false →
         created tr = [t] ∧ kind t = AutoTransport)
    ∧ (SystemInternalTLSEnabled networkCM = true →
         ∃ t0, created tr = [t0; t] ∧ t0 ≠ t
               ∧ kind t0 = AutoTransport ∧ kind t = AutoTLSTransport)
    ∧ (∀ pods requests,
         let p := Paths.process tr pods requests in
         Paths.constructed_by_components p = []
         ∧ Paths.constructed_by_main p = created tr
         ∧ Paths.probed_through p = (λ _, t) <$> pods
         ∧ Paths.proxied_through p = (λ _, t) <$> requests).
Proof.
  intros tr.
  assert (Hmain : ∃ t,
    given_to_throttler tr = [t]
    ∧ given_to_handler tr = [t]
    ∧ (SystemInternalTLSEnabled networkCM = false →
         created tr = [t] ∧ kind t = AutoTransport)
    ∧ (SystemInternalTLSEnabled networkCM = true →
         ∃ t0, created tr = [t0; t] ∧ t0 ≠ t
               ∧ kind t0 = AutoTransport ∧ kind t = AutoTLSTransport)).
  { subst tr.
    unfold Main.main, NewProxyAutoTransport, NewProxyAutoTLSTransport.
    destruct (SystemInternalTLSEnabled networkCM); simpl;
      eexists; unfold given_to_throttler, given_to_handler, created; simpl;
      rewrite !omap_app; simpl; rewrite !omap_fmap_none by done; simpl.
    - split_and!; [reflexivity | reflexivity | done |].
      intros _. eexists. split_and!; [reflexivity | done | done | done].
    - split_and!; [reflexivity | reflexivity | done | done]. }
  destruct Hmain as (t & Hthr & Hhdl & Hplain & Htls).
  exists t. split_and!; [done | done | done | done |].
  intros pods requests p. subst p.
  destruct (process_projections tr pods requests) as (-> & -> & -> & ->).
  rewrite Hthr, Hhdl. simpl. by rewrite !app_nil_r.
Qed.
End main_facts.

(** C3, as stated, fails: with [cluster-drain-timeout] set to ten seconds, or
    to twenty, [main] sleeps the 45 seconds of [pkgnet.DefaultDrainTimeout];
    and under system-internal TLS the https server is started but is not
    among the servers [main] shuts down. *)
Lemma drain_ignores_cluster_drain_timeout :
  let run tls v :=
    Main.main 45000000000 (λ _, tls) Main.exampleEnv
      {[ "cluster-drain-timeout" := v ]}
      Main.servers Main.servers Main.SigCtxDone in
  Main.slept (run false "10s") = [45000000000]
  ∧ Main.slept (run false "20s") = [45000000000]
  ∧ "https" ∈ Main.served (run true "10s")
  ∧ "https" ∉ Main.shut_down (run true "10s").
Proof.
  split_and!; [reflexivity | reflexivity | |].
  - apply (bool_decide_unpack _). by vm_compute.
  - apply (bool_decide_unpack _). by vm_compute.
Qed.

Lemma drain_sleeps_before_shutdown_witness :
  Main.servers ≡ₚ Main.servers
  ∧ Main.slept
      (Main.main 45000000000 (λ _, false) Main.exampleEnv ∅
         Main.servers Main.servers Main.SigCtxDone) = [45000000000].
Proof.
  split; [reflexivity|].
  apply (drain_sleeps_before_shutdown 45000000000 (λ _, false)
           Main.exampleEnv ∅ Main.servers Main.servers Main.SigCtxDone).
  reflexivity.
Defined.

(** C8, as stated, fails: with system-internal TLS enabled [main] creates
    two transports, not one. *)
Lemma two_transports_with_tls :
  length (Main.created
            (Main.main 45000000000 (λ _, true) Main.exampleEnv ∅
               Main.servers Main.servers Main.SigCtxDone)) = 2%nat.
Proof. reflexivity. Qed.

(** ** The throttler's share of capacity *)

Lemma ceilDiv_is_ceiling (a n : Z) :
  0 < n → n * (Capacity.ceilDiv a n - 1) < a <= n * Capacity.ceilDiv a n.
Proof.
  intros Hn. unfold Capacity.ceilDiv.
  pose proof (Z.div_mod (a + n - 1) n ltac:(lia)) as Hdm.
  pose proof (Z.mod_pos_bound (a + n - 1) n Hn) as Hr.
  lia.
Qed.

(** C4.  With [containerConcurrency > 0] the local capacity is the ceiling
    of [containerConcurrency × podCount] divided by the number of
    participating activators, [min(activatorCount, numActivators)], where
    [numActivators = 0] stands for all known activators; it is [0] when
    [podCount = 0]; and ten per pod, two pods and two activators out of two
    give each activator a capacity of 10. *)
Theorem localCapacity_formula
    (containerConcurrency podCount activatorCount numActivators : Z) :
  0 < containerConcurrency → 0 <= podCount →
  0 < activatorCount → 0 <= numActivators →
  let n := Capacity.participating activatorCount numActivators in
  let c := Capacity.localCapacity containerConcurrency podCount
             activatorCount numActivators in
  (numActivators = 0 → n = activatorCount)
  ∧ (numActivators ≠ 0 → n = Z.min activatorCount numActivators)
  ∧ n * (c - 1) < containerConcurrency * podCount <= n * c
  ∧ (podCount = 0 → c = 0)
  ∧ Capacity.localCapacity 10 2 2 2 = 10.
Proof.
  intros Hcc Hpods Hac Hna n c. subst n c.
  unfold Capacity.localCapacity, Capacity.participating.
  assert (Hn : 0 < (if decide (numActivators = 0) then activatorCount
                    else Z.min activatorCount numActivators))
    by (case_decide; lia).
  split_and!.
  - intros ->. by rewrite decide_True.
  - intros Hne. by rewrite decide_False.
  - destruct (decide (podCount = 0)) as [->|Hp]; [lia|].
    by apply ceilDiv_is_ceiling.
  - destruct (decide (podCount = 0)) as [->|Hp]; [lia|].
    by apply ceilDiv_is_ceiling.
  - intros ->. by rewrite decide_True.
  - reflexivity.
Qed.

Lemma localCapacity_formula_witness :
  (0 < 7 ∧ 0 <= 0 ∧ 0 < 4 ∧ 0 <= 2) ∧ Capacity.localCapacity 7 0 4 2 = 0.
Proof.
  split; [lia|].
  apply (localCapacity_formula 7 0 4 2); [lia | lia | lia | lia | reflexivity].
Defined.

(** ** The timeout handler *)

Section timeout_facts.
Import TimeoutHandler.

Lemma chronological_le last bytes finish :
  chronological last bytes finish → last <= finish.
Proof.
  revert last. induction bytes as [|e es IH]; simpl; intros last; [done|].
  intros [He Hes]. apply IH in Hes. lia.
Qed.

Lemma chronological_first_byte last bytes finish :
  chronological last bytes finish → last <= first_byte bytes finish.
Proof.
  revert last. induction bytes as [|e es IH]; simpl; intros last; [done|].
  intros [He Hes]. destruct e as [r|w]; simpl in *; [|done].
  apply IH in Hes. lia.
Qed.

(** A timer that runs from the entry of the request fires no later than
    its bound. *)
Lemma next_deadline_entry (d : deadlines) (last : option Z) (b : Z) :
  b = timeout d ∨ b = responseStartTimeout d →
  0 < b →
  ∃ t, next_deadline d false last = Some t ∧ t <= b.
Proof.
  intros Hb Hpos. unfold next_deadline, armed, earlier.
  destruct last as [l|]; simpl;
    repeat case_decide; try lia; eexists; (split; [reflexivity|]); lia.
Qed.

(** The idle timer fires no later than its bound after the last byte. *)
Lemma next_deadline_idle (d : deadlines) (started : bool) (l : Z) :
  0 < idleTimeout d →
  ∃ t, next_deadline d started (Some l) = Some t ∧ t <= l + idleTimeout d.
Proof.
  intros Hpos. unfold next_deadline, armed, earlier. simpl.
  destruct started;
    repeat case_decide; try lia; eexists; (split; [reflexivity|]); lia.
Qed.

(** The first timer to fire is one of the armed ones. *)
Lemma next_deadline_sound (d : deadlines) (started : bool)
    (last : option Z) (t : Z) :
  next_deadline d started last = Some t →
  (0 < timeout d ∧ t = timeout d)
  ∨ (started = false ∧ 0 < responseStartTimeout d
     ∧ t = responseStartTimeout d)
  ∨ (0 < idleTimeout d ∧ ∃ l, last = Some l ∧ t = l + idleTimeout d).
Proof.
  unfold next_deadline, armed, earlier.
  destruct started, last as [l|]; simpl;
    repeat case_decide; intros [= <-]; try lia;
    repeat match goal with
           | |- context [Z.min ?a ?b] =>
               destruct (Z.min_spec a b) as [[_ ->]|[_ ->]]
           end; eauto 8.
Qed.

Lemma next_deadline_ge (d : deadlines) (started : bool) (last : option Z)
    (next t : Z) :
  (0 < timeout d → next <= timeout d) →
  (started = false → 0 < responseStartTimeout d →
     next <= responseStartTimeout d) →
  (0 < idleTimeout d → ∀ l, last = Some l → next - l <= idleTimeout d) →
  next_deadline d started last = Some t → next <= t.
Proof.
  intros Ht Hrs Hidle Hnext.
  apply next_deadline_sound in Hnext
    as [[? ->]|[(-> & ? & ->)|(? & l & Hl & ->)]].
  - by apply Ht.
  - by apply Hrs.
  - specialize (Hidle ltac:(done) l Hl). lia.
Qed.

(** Once the response has started no 504 is written any more. *)
Lemma serve_started_no_504 (d : deadlines) last bytes finish t :
  serve d true last bytes finish ≠ GatewayTimeout t.
Proof.
  revert last. induction bytes as [|e es IH]; intros last; simpl.
  - destruct (next_deadline d true last); [case_decide|]; done.
  - destruct (next_deadline d true last); [case_decide|]; done || apply IH.
Qed.

(** As long as no response byte was written, a timer that runs from the
    entry and whose bound ends before the first response byte gives a
    504. *)
Lemma serve_entry_504 (d : deadlines) (last : option Z)
    (bytes : list traffic) (finish b : Z) :
  b = timeout d ∨ b = responseStartTimeout d →
  0 < b → b < first_byte bytes finish →
  ∃ t, serve d false last bytes finish = GatewayTimeout t ∧ t <= b.
Proof.
  intros Hb Hpos. revert last.
  induction bytes as [|e es IH]; intros last Hlt; simpl in *.
  - destruct (next_deadline_entry d last b Hb Hpos) as (t & -> & Ht).
    exists t. by rewrite decide_True by lia.
  - destruct (next_deadline_entry d last b Hb Hpos) as (t & -> & Ht).
    case_decide; [by exists t|].
    destruct e as [r|w]; simpl in *; [by apply IH | lia].
Qed.

(** A silence longer than the idle bound after an inbound byte, while no
    response byte was written, gives a 504. *)
Lemma serve_idle_504 (d : deadlines) (last : option Z)
    (pre post : list traffic) (r finish : Z) :
  Forall (λ e, outbound e = false) pre →
  0 < idleTimeout d →
  r + idleTimeout d < next_instant post finish →
  ∃ t, serve d false last (pre ++ Inbound r :: post) finish
         = GatewayTimeout t
       ∧ (chronological (default 0 last) (pre ++ Inbound r :: post) finish
          → t <= r + idleTimeout d).
Proof.
  intros Hpre Hpos Hgap. revert last.
  induction Hpre as [|e es He Hes IH]; intros last.
  - simpl. destruct (next_deadline d false last) as [t|] eqn:Hnext.
    + case_decide as Hfire; [exists t; split; [done|]; intros _; lia|].
      clear Hnext Hfire.
      destruct (next_deadline_idle d false r Hpos) as (t' & Hnext & Ht').
      exists t'. split; [|done].
      destruct post as [|e post]; simpl in *; rewrite Hnext;
        by rewrite decide_True by lia.
    + destruct (next_deadline_idle d false r Hpos) as (t' & Hnext' & Ht').
      exists t'. split; [|done].
      destruct post as [|e post]; simpl in *; rewrite Hnext';
        by rewrite decide_True by lia.
  - cbn [app serve]. rewrite He.
    destruct (next_deadline d false last) as [t|] eqn:Hnext.
    + case_decide as Hfire.
      * exists t. split; [done|]. intros Hchr. simpl in Hchr.
        destruct Hchr as [_ Hchr].
        assert (instant e <= r); [|lia].
        clear -Hchr. revert Hchr. generalize (instant e).
        induction es as [|e' es IH]; simpl; intros z [Hz Hrest]; [done|].
        apply IH in Hrest. lia.
      * destruct (IH (Some (instant e))) as (t' & Hs & Ht').
        exists t'. split; [done|]. intros [_ Hchr]. by apply Ht'.
    + destruct (IH (Some (instant e))) as (t' & Hs & Ht').
      exists t'. split; [done|]. intros [_ Hchr]. by apply Ht'.
Qed.

(** A 504 is written while no response byte was written, when one of the
    armed timers fires. *)
Lemma serve_504_sound (d : deadlines) (last : option Z)
    (bytes : list traffic) (finish t : Z) :
  serve d false last bytes finish = GatewayTimeout t →
  (chronological (default 0 last) bytes finish →
     (∀ l, last = Some l → 0 <= l) → t < first_byte bytes finish)
  ∧ (t = timeout d ∨ t = responseStartTimeout d
     ∨ ∃ r, (last = Some r ∨ Inbound r ∈ bytes) ∧ t = r + idleTimeout d).
Proof.
  revert last. induction bytes as [|e es IH]; intros last; simpl.
  - destruct (next_deadline d false last) as [t'|] eqn:Hnext; [|done].
    case_decide; [|done]. intros [= <-]. split; [done|].
    apply next_deadline_sound in Hnext
      as [[? ->]|[(_ & ? & ->)|(? & l & Hl & ->)]]; eauto 8.
  - destruct (next_deadline d false last) as [t'|] eqn:Hnext.
    + case_decide as Hfire.
      * intros [= <-]. split.
        -- intros [Hle Hchr] _. destruct e as [r|w]; simpl in *; [|done].
           apply chronological_first_byte in Hchr. lia.
        -- apply next_deadline_sound in Hnext
             as [[? ->]|[(_ & ? & ->)|(? & l & Hl & ->)]]; eauto 8.
      * destruct e as [r|w]; simpl.
        -- intros Hs. apply IH in Hs as [Hlt Hwhich]. split.
           ++ intros [Hle Hchr] Hlast. apply Hlt; [done|].
              intros l [= <-]. destruct last as [l0|]; simpl in Hle;
                [specialize (Hlast l0 eq_refl)|]; lia.
           ++ destruct Hwhich as [?|[?|(r' & [[= <-]|Hin] & ->)]]; eauto.
              ** right; right. exists r. split; [|done]. right.
                 apply list_elem_of_here.
              ** right; right. exists r'. split; [|done]. right.
                 by apply list_elem_of_further.
        -- intros Hs. by apply serve_started_no_504 in Hs.
    + destruct e as [r|w]; simpl.
      * intros Hs. apply IH in Hs as [Hlt Hwhich]. split.
        -- intros [Hle Hchr] Hlast. apply Hlt; [done|].
           intros l [= <-]. destruct last as [l0|]; simpl in Hle;
             [specialize (Hlast l0 eq_refl)|]; lia.
        -- destruct Hwhich as [?|[?|(r' & [[= <-]|Hin] & ->)]]; eauto.
           ++ right; right. exists r. split; [|done]. right.
              apply list_elem_of_here.
           ++ right; right. exists r'. split; [|done]. right.
              by apply list_elem_of_further.
      * intros Hs. by apply serve_started_no_504 in Hs.
Qed.

Lemma serve_completed (d : deadlines) started last bytes finish :
  chronological (default 0 last) bytes finish →
  (0 < timeout d → finish <= timeout d) →
  (started = false → 0 < responseStartTimeout d →
     first_byte bytes finish <= responseStartTimeout d) →
  (0 < idleTimeout d → never_idle (idleTimeout d) last bytes finish) →
  serve d started last bytes finish = Completed.
Proof.
  revert started last.
  induction bytes as [|e es IH]; intros started last Hchr Ht Hrs Hidle.
  - simpl in *.
    destruct (next_deadline d started last) as [t|] eqn:Hnext; [|done].
    apply (next_deadline_ge d started last finish) in Hnext; try done.
    by rewrite decide_False by lia.
  - simpl in *. destruct Hchr as [He Hchr].
    pose proof (chronological_le _ _ _ Hchr) as Hfin.
    pose proof (chronological_first_byte _ _ _ Hchr) as Hfirst.
    assert (Hrest : serve d (started || outbound e) (Some (instant e))
                      es finish = Completed).
    { apply IH; [done | done | |].
      - intros Hst Hpos. apply orb_false_iff in Hst as [-> Hout].
        specialize (Hrs eq_refl Hpos).
        destruct e as [r|w]; [done | discriminate].
      - intros Hpos. by destruct (Hidle Hpos). }
    destruct (next_deadline d started last) as [t|] eqn:Hnext; [|done].
    apply (next_deadline_ge d started last (instant e)) in Hnext.
    + by rewrite decide_False by lia.
    + intros Hpos. specialize (Ht Hpos). lia.
    + intros -> Hpos. specialize (Hrs eq_refl Hpos).
      destruct e as [r|w]; simpl in *; lia.
    + intros Hpos. by destruct (Hidle Hpos).
Qed.

(** C7.  When the overall or the response-start bound elapses before the
    backend has written its first response byte, or when after an inbound
    byte no byte passes in either direction for longer than the idle bound
    while no response byte has been written, the client gets status 504; a
    504 of the handler is written only when one of the three timers fires
    before the first response byte; and a request whose backend responds
    within all three bounds gets the backend's whole response, not a 504
    of the handler. *)
Theorem timeout_handler_504
    (d : deadlines) (bytes : list traffic) (finish backend : Z) :
  (∀ b, b = timeout d ∨ b = responseStartTimeout d →
        0 < b → b < first_byte bytes finish →
        ∃ t, ServeHTTP d bytes finish = GatewayTimeout t ∧ t <= b
             ∧ status backend (ServeHTTP d bytes finish)
               = StatusGatewayTimeout)
  ∧ (∀ pre r post,
       bytes = pre ++ Inbound r :: post →
       Forall (λ e, outbound e = false) pre →
       0 < idleTimeout d →
       r + idleTimeout d < next_instant post finish →
       ∃ t, ServeHTTP d bytes finish = GatewayTimeout t
            ∧ (chronological 0 bytes finish → t <= r + idleTimeout d)
            ∧ status backend (ServeHTTP d bytes finish)
              = StatusGatewayTimeout)
  ∧ (∀ t, ServeHTTP d bytes finish = GatewayTimeout t →
          (chronological 0 bytes finish → t < first_byte bytes finish)
          ∧ (t = timeout d ∨ t = responseStartTimeout d
             ∨ ∃ r, Inbound r ∈ bytes ∧ t = r + idleTimeout d))
  ∧ (chronological 0 bytes finish → within_bounds d bytes finish →
       ServeHTTP d bytes finish = Completed
       ∧ status backend (ServeHTTP d bytes finish) = backend).
Proof.
  split_and!.
  - intros b Hb Hpos Hlt. unfold ServeHTTP.
    destruct (serve_entry_504 d None bytes finish b Hb Hpos Hlt)
      as (t & Hs & Ht).
    exists t. by rewrite Hs.
  - intros pre r post -> Hpre Hpos Hgap. unfold ServeHTTP.
    destruct (serve_idle_504 d None pre post r finish Hpre Hpos Hgap)
      as (t & Hs & Ht).
    exists t. by rewrite Hs.
  - intros t Hs. unfold ServeHTTP in Hs.
    apply serve_504_sound in Hs as [Hlt Hwhich]. split.
    + intros Hchr. by apply Hlt.
    + destruct Hwhich as [?|[?|(r & [?|?] & ?)]]; [eauto | eauto | done | eauto 8].
  - intros Hchr (Ht & Hrs & Hidle). unfold ServeHTTP.
    rewrite serve_completed; done.
Qed.
End timeout_facts.

(** The table of [TestRevisionTimeout], in milliseconds, against a backend
    that answers 200. *)
Lemma TestRevisionTimeout :
  let run t rs idle initialSleep sleep :=
    let '(bytes, finish) := TimeoutHandler.timeout_app initialSleep sleep in
    TimeoutHandler.status 200
      (TimeoutHandler.ServeHTTP (TimeoutHandler.mkDeadlines t rs idle)
         bytes finish) in
  run 10000 0 0 2000 0 = 200
  ∧ run 10000 0 0 12000 0 = 504
  ∧ run 10000 7000 0 4000 0 = 200
  ∧ run 20000 7000 0 15000 0 = 504
  ∧ run 10000 0 5000 0 2000 = 200
  ∧ run 15000 0 7000 20000 0 = 504.
Proof. repeat split. Qed.

(** The timeout scenario of the spec: with a timeout of 10 s, a
    response-start timeout of 5 s and an idle timeout of 3 s, a backend
    that waits 6 s and then streams one byte per second is answered 504
    after 5 s, the response-start bound; had its first byte come after
    4 s, the response would have been cut at 10 s, not answered 504. *)
Lemma timeout_trio :
  let d := TimeoutHandler.mkDeadlines 10000 5000 3000 in
  (let '(bytes, finish) := TimeoutHandler.streaming_app 6000 1000 30 in
   TimeoutHandler.ServeHTTP d bytes finish
     = TimeoutHandler.GatewayTimeout 5000)
  ∧ (let '(bytes, finish) := TimeoutHandler.streaming_app 4000 1000 30 in
     TimeoutHandler.ServeHTTP d bytes finish
       = TimeoutHandler.Truncated 10000)
  ∧ TimeoutHandler.ServeHTTP d
      [TimeoutHandler.Inbound 1000; TimeoutHandler.Outbound 4500] 4500
      = TimeoutHandler.GatewayTimeout 4000.
Proof. by vm_compute. Qed.

(** ** The throttler's admission slots *)

Section throttler_facts.
Import Throttler.
Variable maxProxyRetries : nat.

(** Replacing one call changes the number of holders by that call's share. *)
Lemma holders_insert (cs : list call) (i : nat) (old new : call) :
  cs !! i = Some old →
  (holders (<[i := new]> cs) + (if is_holding old then 1 else 0) =
   holders cs + (if is_holding new then 1 else 0))%nat.
Proof.
  unfold holders.
  revert i. induction cs as [|c cs IH]; intros i Hi; [done|].
  destruct i as [|i]; simpl in *.
  - injection Hi as ->. rewrite !filter_cons.
    destruct (is_holding old), (is_holding new); simpl; lia.
  - specialize (IH i Hi). rewrite !filter_cons.
    destruct (decide (is_holding c = true)); simpl; lia.
Qed.

Lemma holders_snoc (cs : list call) (c : call) :
  is_holding c = false → holders (cs ++ [c]) = holders cs.
Proof.
  intros Hc. unfold holders.
  rewrite filter_app, length_app, filter_cons, Hc. simpl. lia.
Qed.

Lemma step_preserves (a : action) (s s' : state) :
  slot_invariant s → step maxProxyRetries a s = Some s' → slot_invariant s'.
Proof.
  intros (Hcount & Hbal & Hsucc) Hstep.
  destruct a as [| |c ctxErr|c err|c|n|]; simpl in Hstep.
  - (* Enter *)
    destruct (draining s); injection Hstep as <-;
      (split_and!; simpl;
       [ by rewrite holders_snoc
       | apply Forall_app; split; [done|]; by apply Forall_singleton
       | apply Forall_app; split; [done|]; by apply Forall_singleton ]).
  - (* Grant *)
    destruct (queue s) as [|c q]; [done|].
    destruct (calls s !! c) as [cl|] eqn:Hc; [|done].
    destruct (where_ cl) eqn:Hw; try done.
    case_decide; [|done]. injection Hstep as <-.
    pose proof (holders_insert (calls s) c cl
      {| where_ := Holding; acquired := S (acquired cl);
         released := released cl; retried := retried cl |} Hc) as Hins.
    unfold is_holding in Hins. rewrite Hw in Hins. simpl in Hins.
    pose proof (Forall_lookup_1 _ _ _ _ Hbal Hc) as Hb.
    unfold balanced in Hb. rewrite Hw in Hb.
    split_and!; simpl.
    + lia.
    + apply Forall_insert; [done|]. unfold balanced. simpl. lia.
    + by apply Forall_insert.
  - (* Cancel *)
    destruct (calls s !! c) as [cl|] eqn:Hc; [|done].
    destruct (where_ cl) eqn:Hw; try done. injection Hstep as <-.
    pose proof (holders_insert (calls s) c cl
      {| where_ := Returned (Some ctxErr); acquired := acquired cl;
         released := released cl; retried := retried cl |} Hc) as Hins.
    unfold is_holding in Hins. rewrite Hw in Hins. simpl in Hins.
    pose proof (Forall_lookup_1 _ _ _ _ Hbal Hc) as Hb.
    unfold balanced in Hb. rewrite Hw in Hb.
    split_and!; simpl.
    + lia.
    + by apply Forall_insert.
    + by apply Forall_insert.
  - (* Return *)
    destruct (calls s !! c) as [cl|] eqn:Hc; [|done].
    destruct (where_ cl) eqn:Hw; try done. injection Hstep as <-.
    pose proof (holders_insert (calls s) c cl
      {| where_ := Returned err; acquired := acquired cl;
         released := S (released cl); retried := retried cl |} Hc) as Hins.
    unfold is_holding in Hins. rewrite Hw in Hins. simpl in Hins.
    pose proof (Forall_lookup_1 _ _ _ _ Hbal Hc) as Hb.
    unfold balanced in Hb. rewrite Hw in Hb.
    split_and!; simpl.
    + lia.
    + by apply Forall_insert.
    + apply Forall_insert; [done|]. intros _. simpl. lia.
  - (* Retry *)
    destruct (calls s !! c) as [cl|] eqn:Hc; [|done].
    destruct (where_ cl) eqn:Hw; try done.
    case_decide; [|done]. injection Hstep as <-.
    pose proof (holders_insert (calls s) c cl
      {| where_ := Queued; acquired := acquired cl;
         released := S (released cl); retried := S (retried cl) |} Hc)
      as Hins.
    unfold is_holding in Hins. rewrite Hw in Hins. simpl in Hins.
    pose proof (Forall_lookup_1 _ _ _ _ Hbal Hc) as Hb.
    unfold balanced in Hb. rewrite Hw in Hb.
    split_and!; simpl.
    + lia.
    + by apply Forall_insert.
    + by apply Forall_insert.
  - by injection Hstep as <-.
  - by injection Hstep as <-.
Qed.

Lemma run_preserves (acts : list action) (s s' : state) :
  slot_invariant s → run maxProxyRetries acts s = Some s' → slot_invariant s'.
Proof.
  revert s. induction acts as [|a acts IH]; intros s Hinv; simpl.
  - by intros [= <-].
  - destruct (step maxProxyRetries a s) as [s1|] eqn:Hstep; [|done].
    apply IH. by apply (step_preserves a s).
Qed.

Lemma initial_invariant : slot_invariant initial.
Proof. by split_and!. Qed.

(** C5.  In every state a revision's throttler reaches, the slots handed
    out are exactly those of the calls of [Try] that are running [fn]; a
    call that waits or has returned (with success, with the error of [fn],
    or with the error of its context after a wait in the queue) has given
    back every slot it was granted, each once; a call that returned success
    was granted a slot; and the context firing on a queued call hands out
    and takes back nothing. *)
Theorem no_slot_leaked (acts : list action) (s : state) :
  run maxProxyRetries acts initial = Some s →
  inflight s = holders (calls s)
  ∧ (∀ c cl, calls s !! c = Some cl →
       match where_ cl with
       | Holding => acquired cl = S (released cl)
       | Queued => released cl = acquired cl
       | Returned err =>
           released cl = acquired cl
           ∧ (err = None → (1 <= acquired cl)%nat)
       end)
  ∧ (∀ c ctxErr s', step maxProxyRetries (Cancel c ctxErr) s = Some s' →
       inflight s' = inflight s
       ∧ ∃ cl cl', calls s !! c = Some cl ∧ calls s' !! c = Some cl'
           ∧ where_ cl' = Returned (Some ctxErr)
           ∧ acquired cl' = acquired cl ∧ released cl' = released cl).
Proof.
  intros Hrun.
  destruct (run_preserves acts initial s initial_invariant Hrun)
    as (Hcount & Hbal & Hsucc).
  split_and!; [done| |].
  - intros c cl Hc.
    pose proof (Forall_lookup_1 _ _ _ _ Hbal Hc) as Hb.
    pose proof (Forall_lookup_1 _ _ _ _ Hsucc Hc) as Hs.
    unfold balanced, succeeded_with_slot in *.
    destruct (where_ cl) as [| |err]; try done.
    split; [done|]. intros ->. by apply Hs.
  - intros c ctxErr s' Hstep. simpl in Hstep.
    destruct (calls s !! c) as [cl|] eqn:Hc; [|done].
    destruct (where_ cl) eqn:Hw; try done. injection Hstep as <-.
    split; [done|]. eexists cl, _. split; [done|]. simpl.
    rewrite list_lookup_insert_eq by by eapply lookup_lt_Some.
    done.
Qed.
End throttler_facts.

Lemma no_slot_leaked_witness :
  ∃ s, Throttler.run 3 Throttler.example_run Throttler.initial = Some s
       ∧ Throttler.inflight s = Throttler.holders (Throttler.calls s).
Proof.
  eexists. split; [vm_compute; reflexivity|].
  apply (no_slot_leaked 3 Throttler.example_run). reflexivity.
Defined.

(** ** The configuration attached to contexts *)

Section config_facts.
Import Config.
Context {defaults features : Type}.
Variable defaultDefaults : option defaults.
Variable defaultFeatures : option features.
Variable DefaultsConfigName : string.
Variable FeaturesConfigName : string.

Local Abbreviation heap := (@Config.heap defaults features).
Local Abbreviation Store := (gmap string value).

Lemma ensure_Defaults_spec (cfg : loc) (h : heap) (c : Config) (d : defaults) :
  defaultDefaults = Some d → configs h !! cfg = Some c →
  ∃ h' c',
    ensure_Defaults defaultDefaults cfg h = Some h'
    ∧ configs h' !! cfg = Some c'
    ∧ is_Some (Defaults c') ∧ Features c' = Features c
    ∧ featureses h' = featureses h
    ∧ (Defaults c = None →
         Defaults c' ≫= (λ l, defaultses h' !! l) = Some d).
Proof.
  intros Hd Hc. unfold ensure_Defaults. rewrite Hc. simpl.
  destruct (Defaults c) as [dl|] eqn:Hdl.
  - exists h, c. rewrite Hdl. by eauto 10.
  - unfold NewDefaultsConfigFromMap_nil. rewrite Hd. simpl.
    unfold set_Defaults. simpl. rewrite Hc. simpl.
    eexists _, _. split; [reflexivity|]. simpl. rewrite lookup_insert_eq.
    split; [reflexivity|]. simpl. split_and!; [by eauto | done | done |].
    intros _. by rewrite lookup_insert_eq.
Qed.

Lemma ensure_Features_spec (cfg : loc) (h : heap) (c : Config) (f : features) :
  defaultFeatures = Some f → configs h !! cfg = Some c →
  ∃ h' c',
    ensure_Features defaultFeatures cfg h = Some h'
    ∧ configs h' !! cfg = Some c'
    ∧ is_Some (Features c') ∧ Defaults c' = Defaults c
    ∧ defaultses h' = defaultses h
    ∧ (Features c = None →
         Features c' ≫= (λ l, featureses h' !! l) = Some f).
Proof.
  intros Hf Hc. unfold ensure_Features. rewrite Hc. simpl.
  destruct (Features c) as [fl|] eqn:Hfl.
  - exists h, c. rewrite Hfl. by eauto 10.
  - unfold NewFeaturesConfigFromMap_nil. rewrite Hf. simpl.
    unfold set_Features. simpl. rewrite Hc. simpl.
    eexists _, _. split; [reflexivity|]. simpl. rewrite lookup_insert_eq.
    split; [reflexivity|]. simpl. split_and!; [by eauto | done | done |].
    intros _. by rewrite lookup_insert_eq.
Qed.

Lemma load_Defaults_spec (s : Store) (cfg : loc) (h : heap) (c : Config) :
  store_ok DefaultsConfigName FeaturesConfigName s h →
  configs h !! cfg = Some c → Defaults c = None →
  ∃ h' c',
    load_Defaults DefaultsConfigName s cfg h = Some h'
    ∧ configs h' !! cfg = Some c'
    ∧ Features c' = Features c
    ∧ featureses h' = featureses h
    ∧ defaultses h ⊆ defaultses h'
    ∧ (∀ dl, Defaults c' = Some dl → defaultses h !! dl = None)
    ∧ Defaults c' ≫= (λ l, defaultses h' !! l) =
        (stored DefaultsConfigName FeaturesConfigName s h).1.
Proof.
  intros [Hok _] Hc Hnil. unfold load_Defaults, UntypedLoad, stored. simpl.
  destruct (s !! DefaultsConfigName) as [[[l|]| |]|] eqn:Hs;
    try (exists h, c; rewrite Hnil; by eauto 10).
  - destruct (Hok l eq_refl) as [v Hv]. simpl. rewrite Hv. simpl.
    unfold set_Defaults. simpl. rewrite Hc. simpl.
    pose proof (is_fresh (dom (defaultses h))) as Hfresh.
    apply not_elem_of_dom in Hfresh.
    eexists _, _. split; [reflexivity|]. simpl. rewrite lookup_insert_eq.
    split; [reflexivity|]. simpl. split_and!; try done.
    + by apply insert_subseteq.
    + by intros dl [= <-].
    + by rewrite lookup_insert_eq.
  - simpl. unfold set_Defaults. rewrite Hc. simpl.
    eexists _, _. split; [reflexivity|]. simpl. rewrite lookup_insert_eq.
    split; [reflexivity|]. by simpl.
Qed.

Lemma load_Features_spec (s : Store) (cfg : loc) (h : heap) (c : Config) :
  store_ok DefaultsConfigName FeaturesConfigName s h →
  configs h !! cfg = Some c → Features c = None →
  ∃ h' c',
    load_Features FeaturesConfigName s cfg h = Some h'
    ∧ configs h' !! cfg = Some c'
    ∧ Defaults c' = Defaults c
    ∧ defaultses h' = defaultses h
    ∧ featureses h ⊆ featureses h'
    ∧ (∀ fl, Features c' = Some fl → featureses h !! fl = None)
    ∧ Features c' ≫= (λ l, featureses h' !! l) =
        (stored DefaultsConfigName FeaturesConfigName s h).2.
Proof.
  intros [_ Hok] Hc Hnil. unfold load_Features, UntypedLoad, stored. simpl.
  destruct (s !! FeaturesConfigName) as [[|[l|]|]|] eqn:Hs;
    try (exists h, c; rewrite Hnil; by eauto 10).
  - destruct (Hok l eq_refl) as [v Hv]. simpl. rewrite Hv. simpl.
    unfold set_Features. simpl. rewrite Hc. simpl.
    pose proof (is_fresh (dom (featureses h))) as Hfresh.
    apply not_elem_of_dom in Hfresh.
    eexists _, _. split; [reflexivity|]. simpl. rewrite lookup_insert_eq.
    split; [reflexivity|]. simpl. split_and!; try done.
    + by apply insert_subseteq.
    + by intros fl [= <-].
    + by rewrite lookup_insert_eq.
  - simpl. unfold set_Features. rewrite Hc. simpl.
    eexists _, _. split; [reflexivity|]. simpl. rewrite lookup_insert_eq.
    split; [reflexivity|]. by simpl.
Qed.

(** [Load] hands out the contents of the store's objects in objects that
    did not exist before the call. *)
Lemma Load_spec (s : Store) (h : heap) :
  store_ok DefaultsConfigName FeaturesConfigName s h →
  ∃ cfg h' target,
    Load DefaultsConfigName FeaturesConfigName s h = Some (cfg, h')
    ∧ configs h' !! cfg = Some target
    ∧ observe cfg h' =
        Some (stored DefaultsConfigName FeaturesConfigName s h)
    ∧ defaultses h ⊆ defaultses h' ∧ featureses h ⊆ featureses h'
    ∧ (∀ dl, Defaults target = Some dl → defaultses h !! dl = None)
    ∧ (∀ fl, Features target = Some fl → featureses h !! fl = None).
Proof.
  intros Hok. unfold Load.
  destruct (new_config {| Defaults := None; Features := None |} h)
    as [cfg h0] eqn:Hnew.
  assert (Hc0 : configs h0 !! cfg
                = Some {| Defaults := None; Features := None |}).
  { injection Hnew as <- <-. simpl. by rewrite lookup_insert_eq. }
  assert (Hd0 : defaultses h0 = defaultses h) by by injection Hnew as <- <-.
  assert (Hf0 : featureses h0 = featureses h) by by injection Hnew as <- <-.
  assert (Hok0 : store_ok DefaultsConfigName FeaturesConfigName s h0).
  { unfold store_ok. by rewrite Hd0, Hf0. }
  destruct (load_Defaults_spec s cfg h0 _ Hok0 Hc0 eq_refl)
    as (h1 & c1 & -> & Hc1 & Hfeat1 & Hfs1 & Hsub1 & Hfresh1 & Hval1).
  simpl.
  assert (Hok1 : store_ok DefaultsConfigName FeaturesConfigName s h1).
  { destruct Hok0 as [Hokd Hokf]. split.
    - intros l Hl. destruct (Hokd l Hl) as [v Hv]. exists v.
      by eapply lookup_weaken.
    - by rewrite Hfs1. }
  destruct (load_Features_spec s cfg h1 c1 Hok1 Hc1 Hfeat1)
    as (h2 & c2 & -> & Hc2 & Hdef2 & Hds2 & Hsub2 & Hfresh2 & Hval2).
  simpl. exists cfg, h2, c2. split_and!; try done.
  - unfold observe. rewrite Hc2. simpl. f_equal.
    rewrite Hdef2, Hds2, Hval1, Hval2. unfold stored. simpl.
    by rewrite Hd0, Hfs1, Hf0.
  - by rewrite Hds2, <- Hd0.
  - by rewrite <- Hf0, <- Hfs1.
  - intros dl Hdl. rewrite <- Hd0. apply Hfresh1. by rewrite <- Hdef2.
  - intros fl Hfl. rewrite <- Hf0, <- Hfs1. by apply Hfresh2.
Qed.

(** Objects that are older than a loaded Config and its two copies are out
    of reach of the writes made through it. *)
Lemma mutate_frame (base : heap) (cfg : loc) (target : Config)
    (ms : list mutation) (h : heap) :
  (∀ dl, Defaults target = Some dl → defaultses base !! dl = None) →
  (∀ fl, Features target = Some fl → featureses base !! fl = None) →
  defaultses base ⊆ defaultses h → featureses base ⊆ featureses h →
  defaultses base ⊆ defaultses (foldl (mutate cfg target) h ms)
  ∧ featureses base ⊆ featureses (foldl (mutate cfg target) h ms).
Proof.
  intros Hd Hf. revert h.
  induction ms as [|m ms IH]; intros h Hsd Hsf; [done|].
  change (foldl (mutate cfg target) h (m :: ms))
    with (foldl (mutate cfg target) (mutate cfg target h m) ms).
  apply IH.
  - destruct m as [p|p|v|v]; simpl.
    + unfold set_Defaults. by destruct (configs h !! cfg).
    + unfold set_Features. by destruct (configs h !! cfg).
    + destruct (Defaults target) as [dl|] eqn:Hdl; [|done]. simpl.
      apply insert_subseteq_r; [by apply Hd | done].
    + by destruct (Features target).
  - destruct m as [p|p|v|v]; simpl.
    + unfold set_Defaults. by destruct (configs h !! cfg).
    + unfold set_Features. by destruct (configs h !! cfg).
    + by destruct (Defaults target).
    + destruct (Features target) as [fl|] eqn:Hfl; [|done]. simpl.
      apply insert_subseteq_r; [by apply Hf | done].
Qed.

Lemma stored_mono (s : Store) (h h' : heap) :
  defaultses h ⊆ defaultses h' → featureses h ⊆ featureses h' →
  store_ok DefaultsConfigName FeaturesConfigName s h →
  stored DefaultsConfigName FeaturesConfigName s h'
    = stored DefaultsConfigName FeaturesConfigName s h
  ∧ store_ok DefaultsConfigName FeaturesConfigName s h'.
Proof.
  intros Hsd Hsf [Hokd Hokf]. split.
  - unfold stored. f_equal.
    + destruct (s !! DefaultsConfigName) as [[[l|]| |]|] eqn:Hs; try done.
      destruct (Hokd l eq_refl) as [v Hv]. rewrite Hv.
      by eapply lookup_weaken.
    + destruct (s !! FeaturesConfigName) as [[|[l|]|]|] eqn:Hs; try done.
      destruct (Hokf l eq_refl) as [v Hv]. rewrite Hv.
      by eapply lookup_weaken.
  - split.
    + intros l Hl. destruct (Hokd l Hl) as [v Hv]. exists v.
      by eapply lookup_weaken.
    + intros l Hl. destruct (Hokf l Hl) as [v Hv]. exists v.
      by eapply lookup_weaken.
Qed.

(** The Config that [Load] returns is a new object. *)
Lemma Load_fresh (s : Store) (h h1 : heap) (cfg : loc) :
  Load DefaultsConfigName FeaturesConfigName s h = Some (cfg, h1) →
  configs h !! cfg = None.
Proof.
  unfold Load, new_config. intros Hload.
  destruct (load_Defaults _ _ _ _) as [h0|]; simpl in Hload; [|done].
  destruct (load_Features _ _ _ _) as [h0'|]; simpl in Hload; [|done].
  injection Hload as <- _. apply not_elem_of_dom, is_fresh.
Qed.

(** C10.  [Load] returns deep copies: the returned Config is a new object
    that holds the values of the stored [Defaults] and [Features] in
    objects of its own, the objects of the store staying as they were; and
    whatever a caller writes through a returned Config (into its two
    fields, or into the two objects [Load] made for it) leaves the objects
    of the store as they were, so that a later [Load], and a later
    [ToContext] of the store, yield the values seen before the writes. *)
Theorem Load_returns_copies (s : Store) (h : heap) (ctx : context) :
  store_ok DefaultsConfigName FeaturesConfigName s h →
  ∃ cfg h1 target,
    Load DefaultsConfigName FeaturesConfigName s h = Some (cfg, h1)
    ∧ configs h1 !! cfg = Some target
    ∧ observe cfg h1
        = Some (stored DefaultsConfigName FeaturesConfigName s h)
    ∧ configs h !! cfg = None
    ∧ (∀ dl, Defaults target = Some dl → defaultses h !! dl = None)
    ∧ (∀ fl, Features target = Some fl → featureses h !! fl = None)
    ∧ defaultses h ⊆ defaultses h1 ∧ featureses h ⊆ featureses h1
    ∧ ∀ ms, let h2 := foldl (mutate cfg target) h1 ms in
        stored DefaultsConfigName FeaturesConfigName s h2
          = stored DefaultsConfigName FeaturesConfigName s h
        ∧ (∃ cfg' h3,
             Load DefaultsConfigName FeaturesConfigName s h2
               = Some (cfg', h3)
             ∧ observe cfg' h3 = observe cfg h1)
        ∧ (∃ ctx' cfg' h3,
             Store_ToContext DefaultsConfigName FeaturesConfigName s ctx h2
               = Some (ctx', h3)
             ∧ FromContext ctx' = Some cfg'
             ∧ observe cfg' h3 = observe cfg h1
             ∧ observe_apis ctx' h3 = observe cfg h1).
Proof.
  intros Hok.
  destruct (Load_spec s h Hok)
    as (cfg & h1 & target & Hload & Htarget & Hobs & Hsd & Hsf & Hfd & Hff).
  exists cfg, h1, target.
  split_and!; [done | done | done | by eapply Load_fresh | done | done
              | done | done |].
  intros ms h2.
  destruct (mutate_frame h cfg target ms h1 Hfd Hff Hsd Hsf) as [Hsd2 Hsf2].
  destruct (stored_mono s h h2 Hsd2 Hsf2 Hok) as [Hstored Hok2].
  destruct (Load_spec s h2 Hok2)
    as (cfg' & h3 & target' & Hload' & Htarget' & Hobs' & _).
  split_and!.
  - done.
  - exists cfg', h3. split; [done|]. by rewrite Hobs', Hobs, Hstored.
  - unfold Store_ToContext. rewrite Hload'. simpl. rewrite Htarget'. simpl.
    eexists _, cfg', h3. split; [reflexivity|].
    split_and!; [done | by rewrite Hobs', Hobs, Hstored |].
    rewrite Hobs, <- Hstored, <- Hobs'.
    unfold observe_apis, observe. simpl. by rewrite Htarget'.
Qed.
End config_facts.

Lemma example_store_ok :
  Config.store_ok "config-defaults" "config-features"
    Config.example_store Config.example_heap.
Proof.
  unfold Config.store_ok, Config.example_store, Config.example_heap. split.
  - intros l. rewrite lookup_singleton_eq. intros [= <-]. simpl.
    rewrite lookup_singleton_eq. by eauto.
  - intros l. by rewrite lookup_singleton_ne.
Defined.

Lemma Load_returns_copies_witness :
  ∃ cfg h1 target,
    Config.Load "config-defaults" "config-features"
      Config.example_store Config.example_heap = Some (cfg, h1)
    ∧ Config.configs h1 !! cfg = Some target
    ∧ Config.observe cfg h1 = Some (Some 7, None)
    ∧ let h2 := foldl (Config.mutate cfg target) h1
                  [Config.WriteDefaults 9; Config.AssignFeatures None] in
      Config.stored "config-defaults" "config-features"
        Config.example_store h2 = (Some 7, None)
      ∧ ∃ cfg' h3,
          Config.Load "config-defaults" "config-features"
            Config.example_store h2 = Some (cfg', h3)
          ∧ Config.observe cfg' h3 = Some (Some 7, None).
Proof.
  destruct (Load_returns_copies "config-defaults" "config-features"
              Config.example_store Config.example_heap Config.Background
              example_store_ok)
    as (cfg & h1 & target & Hload & Htarget & Hobs & _ & _ & _ & _ & _ & Hms).
  assert (Hst : Config.stored "config-defaults" "config-features"
                  Config.example_store Config.example_heap = (Some 7, None))
    by (vm_compute; reflexivity).
  rewrite Hst in Hobs, Hms.
  exists cfg, h1, target. split; [exact Hload|]. split; [exact Htarget|].
  split; [exact Hobs|].
  destruct (Hms [Config.WriteDefaults 9; Config.AssignFeatures None])
    as (Hstored & (cfg' & h3 & Hload' & Hobs') & _).
  split; [exact Hstored|].
  exists cfg', h3. split; [exact Hload'|]. rewrite Hobs'. exact Hobs.
Defined.

(** * Further properties of the code *)

(** ** The director: what the list of headers to remove means *)

Section proxy_more.
Import Proxy.
Variable canon : string → string.
Variable passthrough : string.

(** X1.  The outgoing request depends on [headersToRemove] only through
    the set of canonical names it holds: order and repetitions in the list,
    and the spelling of a name within its canonical class, change nothing. *)
Theorem Director_removal_set
    (target hostOverride : string) (ks1 ks2 : list string)
    (useHTTPS : bool) (req : Request) :
  (∀ k, k ∈ canon <$> ks1 ↔ k ∈ canon <$> ks2) →
  Director canon passthrough target hostOverride ks1 useHTTPS req =
  Director canon passthrough target hostOverride ks2 useHTTPS req.
Proof.
  intros Hset. unfold Director.
  destruct (decide (hostOverride ≠ NoHostOverride)); f_equal;
    apply map_eq; intros k; rewrite !prune_lookup;
    destruct (decide (k ∈ canon <$> ks1)) as [H1|H1],
             (decide (k ∈ canon <$> ks2)) as [H2|H2];
    try done; by apply Hset in H1 || apply Hset in H2.
Qed.

(** X2.  Without a host override, or when the list of headers to remove
    names the passthrough-loadbalancing header, the director is idempotent:
    a request that went through it is left as it is by a second pass. *)
Theorem Director_idempotent
    (target hostOverride : string) (headersToRemove : list string)
    (useHTTPS : bool) (req : Request) :
  hostOverride = NoHostOverride
    ∨ canon passthrough ∈ canon <$> headersToRemove →
  let D := Director canon passthrough target hostOverride
             headersToRemove useHTTPS in
  D (D req) = D req.
Proof.
  intros Hcase D. subst D. unfold Director.
  destruct (decide (hostOverride ≠ NoHostOverride)) as [Hov|Hov]; simpl.
  - destruct Hcase as [?|Hin]; [done|]. f_equal.
    apply map_eq. intros k. rewrite !prune_lookup.
    destruct (decide (k ∈ canon <$> headersToRemove)) as [Hk|Hk]; [done|].
    assert (Hne : canon passthrough ≠ k) by (intros <-; contradiction).
    unfold Header_Add. rewrite !lookup_insert_ne by done.
    rewrite prune_lookup. rewrite decide_False by done.
    by rewrite lookup_insert_ne.
  - f_equal. apply map_eq. intros k. rewrite !prune_lookup.
    by destruct (decide (k ∈ canon <$> headersToRemove)).
Qed.
End proxy_more.

Lemma Director_removal_set_witness :
  let req := Proxy.mkRequest (Proxy.mkURL "" "")
               "example.com" {[ "X-A" := ["1"]; "X-C" := ["2"] ]} in
  Proxy.Director (λ k, k) "K-Passthrough-Lb" "10.0.0.1:8012" ""
    ["X-A"; "X-B"; "X-A"] false req =
  Proxy.Director (λ k, k) "K-Passthrough-Lb" "10.0.0.1:8012" ""
    ["X-B"; "X-A"] false req.
Proof.
  apply (Director_removal_set (λ k, k) "K-Passthrough-Lb").
  intros k. rewrite !list_fmap_id. rewrite !elem_of_cons.
  split; intros H; decompose [or] H; auto.
Defined.

Lemma Director_idempotent_witness :
  let req := Proxy.mkRequest (Proxy.mkURL "" "")
               "example.com" {[ "X-A" := ["1"]; "X-C" := ["2"] ]} in
  let D := Proxy.Director (λ k, k) "K-Passthrough-Lb" "10.0.0.1:8012" ""
             ["X-A"] true in
  D (D req) = D req.
Proof.
  apply (Director_idempotent (λ k, k) "K-Passthrough-Lb"). by left.
Defined.

(** ** The readiness check over the life of the process *)

Lemma healthChecks_once (obs : list (bool * option error)) (st : Health.state) :
  let st' := (Probes.healthChecks obs st).2 in
  Health.once_done st' = Health.once_done st || existsb fst obs
  ∧ Probes.canceled_lines st' =
      (Probes.canceled_lines st +
       if negb (Health.once_done st) && existsb fst obs then 1 else 0)%nat.
Proof.
  revert st. induction obs as [|[sigDone status] obs IH]; intros st; simpl.
  - rewrite orb_false_r, andb_false_r. split; [done | lia].
  - destruct (Health.healthCheck sigDone status st) as [r st1] eqn:Hhc.
    specialize (IH st1).
    destruct (Probes.healthChecks obs st1) as [rs st2]. simpl in *.
    destruct IH as [IHonce IHcount]. rewrite IHonce, IHcount.
    unfold Health.healthCheck in Hhc.
    destruct sigDone; simpl in *.
    + destruct (Health.once_done st) eqn:Hst; injection Hhc as <- <-.
      * rewrite Hst. simpl. split; [done | lia].
      * simpl. split; [done|]. unfold Probes.canceled_lines. simpl.
        rewrite filter_app, length_app. simpl. lia.
    + injection Hhc as <- <-. simpl. split; [done|].
      unfold Probes.canceled_lines. simpl.
      rewrite filter_app, length_app. simpl. lia.
Qed.

Lemma healthChecks_length (obs : list (bool * option error))
    (st : Health.state) :
  length (Probes.healthChecks obs st).1 = length obs.
Proof.
  revert st. induction obs as [|[sigDone status] obs IH]; intros st; [done|].
  simpl. destruct (Health.healthCheck sigDone status st) as [r st1].
  specialize (IH st1).
  destruct (Probes.healthChecks obs st1) as [rs st2]. simpl in *.
  by rewrite IH.
Qed.

(** X3.  However often, and with whatever outcome, the readiness check is
    called, the logger hears of the cancelled signal context at most once:
    once if some call found the context done, never otherwise. *)
Theorem cancel_logged_once (obs : list (bool * option error)) :
  let '(results, st) := Probes.healthChecks obs Health.initial in
  length results = length obs
  ∧ Probes.canceled_lines st = (if existsb fst obs then 1 else 0)%nat
  ∧ Health.once_done st = existsb fst obs.
Proof.
  pose proof (healthChecks_once obs Health.initial) as [Honce Hcount].
  pose proof (healthChecks_length obs Health.initial) as Hlen.
  destruct (Probes.healthChecks obs Health.initial) as [results st].
  simpl in *. split; [done|]. split; [|done].
  rewrite Hcount. unfold Probes.canceled_lines. simpl.
  by destruct (existsb fst obs).
Qed.

(** ** What [main] wires together *)

Section main_more.
Import Main.
Variable DefaultDrainTimeout : Z.
Variable SystemInternalTLSEnabled : gmap string string → bool.

Local Abbreviation main :=
  (Main.main DefaultDrainTimeout SystemInternalTLSEnabled).

(** X4.  The transport that the throttler and the handler share is built
    with the two idle-pool sizes of the environment; it is the TLS transport
    exactly when the network ConfigMap enables system-internal TLS, and the
    handler is created with that same flag. *)
Theorem main_transport_settings (env : config)
    (networkCM : gmap string string) (startOrder stopOrder : list string)
    (w : wakeup) :
  let tr := main env networkCM startOrder stopOrder w in
  let tls := SystemInternalTLSEnabled networkCM in
  ∃ t,
    given_to_throttler tr = [t] ∧ given_to_handler tr = [t]
    ∧ maxIdle t = MaxIdleProxyConns env
    ∧ maxIdlePerHost t = MaxIdleProxyConnsPerHost env
    ∧ kind t = (if tls then AutoTLSTransport else AutoTransport)
    ∧ Wiring.handler_flags tr = [tls].
Proof.
  intros tr tls. subst tr tls.
  unfold Main.main, NewProxyAutoTransport, NewProxyAutoTLSTransport.
  destruct (SystemInternalTLSEnabled networkCM); simpl;
    eexists;
    unfold given_to_throttler, given_to_handler, Wiring.handler_flags; simpl;
    rewrite !omap_app; simpl; rewrite !omap_fmap_none by done; simpl;
    split_and!; reflexivity.
Qed.

(** X5.  [main] starts every server of the [servers] map, and the https
    server besides exactly when system-internal TLS is enabled, all of them
    before it sleeps; whatever it shuts down it had started; without TLS it
    shuts down all it started, with TLS the https server is the one it
    started and never shuts down. *)
Theorem main_servers (env : config) (networkCM : gmap string string)
    (startOrder stopOrder : list string) (w : wakeup) :
  startOrder ≡ₚ servers → stopOrder ≡ₚ servers →
  let tr := main env networkCM startOrder stopOrder w in
  let tls := SystemInternalTLSEnabled networkCM in
  served tr ≡ₚ servers ++ (if tls then ["https"] else [])
  ∧ (∃ pre post,
       tr = pre ++ Sleep DefaultDrainTimeout :: post
       ∧ served pre = served tr)
  ∧ (∀ name, name ∈ shut_down tr → name ∈ served tr)
  ∧ (∀ name, name ∈ served tr → name ∉ shut_down tr →
             tls = true ∧ name = "https")
  ∧ (tls = true → "https" ∈ served tr ∧ "https" ∉ shut_down tr).
Proof.
  intros Hstart Hstop tr tls. subst tr tls.
  destruct (main_split DefaultDrainTimeout SystemInternalTLSEnabled
              env networkCM startOrder stopOrder w)
    as (pre & Htr & _ & Hshut & Hserved).
  assert (Hserved_all :
    served (main env networkCM startOrder stopOrder w) = served pre).
  { rewrite Htr. unfold served. rewrite omap_app. simpl. rewrite omap_app.
    simpl. rewrite omap_fmap_none by done. by rewrite app_nil_r. }
  assert (Hshut_all :
    shut_down (main env networkCM startOrder stopOrder w) = stopOrder).
  { rewrite Htr. unfold shut_down in *. rewrite omap_app, Hshut. simpl.
    rewrite omap_app. simpl. rewrite omap_fmap_some by done.
    by rewrite app_nil_r. }
  rewrite Hserved_all, Hshut_all, Hserved.
  assert (Hhttps : "https" ∉ servers).
  { apply (bool_decide_unpack _). by vm_compute. }
  split_and!.
  - by rewrite Hstart.
  - exists pre. eexists. split; [exact Htr | done].
  - intros name Hin. rewrite Hstop in Hin. rewrite Hstart.
    apply elem_of_app. by left.
  - intros name Hin Hnot. rewrite Hstop in Hnot. rewrite Hstart in Hin.
    apply elem_of_app in Hin as [Hin|Hin]; [done|].
    destruct (SystemInternalTLSEnabled networkCM).
    + apply list_elem_of_singleton in Hin. done.
    + by apply elem_of_nil in Hin.
  - intros ->. split.
    + apply elem_of_app. right. apply list_elem_of_singleton. done.
    + by rewrite Hstop.
Qed.
End main_more.

Lemma main_servers_witness :
  Main.servers ≡ₚ Main.servers
  ∧ "https" ∉ Main.shut_down
      (Main.main 45000000000 (λ _, true) Main.exampleEnv ∅
         Main.servers Main.servers (Main.ServerFailed "h2c")).
Proof.
  split; [reflexivity|].
  apply (main_servers 45000000000 (λ _, true) Main.exampleEnv ∅
           Main.servers Main.servers (Main.ServerFailed "h2c"));
    reflexivity.
Defined.

(** ** The deadlines of a request: the limits of [int64] *)

Lemma seconds_exact_iff (x : Z) :
  Timeouts.seconds x = x * Timeouts.Second ↔ Timeouts.fits_duration x.
Proof.
  split; [|apply seconds_exact].
  intros Hx. pose proof (wrap64_range (x * Timeouts.Second)) as Hr.
  fold (Timeouts.seconds x) in Hr. rewrite Hx in Hr.
  unfold int64_ok, Timeouts.fits_duration, Timeouts.Second in *. lia.
Qed.

Lemma seconds_zero_iff (x : Z) :
  Timeouts.seconds x = 0 ↔ (2 ^ 55 | x).
Proof.
  unfold Timeouts.seconds, wrap64, Timeouts.Second.
  assert (Hmod : (x * 1000000000 + 2 ^ 63) mod 2 ^ 64 - 2 ^ 63 = 0
                 ↔ (2 ^ 64 | x * 1000000000)).
  { split.
    - intros H0.
      pose proof (Z.div_mod (x * 1000000000 + 2 ^ 63) (2 ^ 64) ltac:(lia))
        as Hdm.
      exists ((x * 1000000000 + 2 ^ 63) / 2 ^ 64). lia.
    - intros [q Hq]. rewrite Hq.
      replace (q * 2 ^ 64 + 2 ^ 63) with (2 ^ 63 + q * 2 ^ 64) by lia.
      rewrite Z.mod_add by lia. rewrite Z.mod_small by lia. lia. }
  rewrite Hmod.
  replace (2 ^ 64) with (2 ^ 55 * 2 ^ 9) by reflexivity.
  replace (x * 1000000000) with ((x * 1953125) * 2 ^ 9) by lia.
  rewrite Z.mul_divide_cancel_r by lia.
  split.
  - intros Hdiv. rewrite Z.mul_comm in Hdiv.
    apply Z.gauss in Hdiv; [done | reflexivity].
  - intros Hdiv. by apply Z.divide_mul_l.
Qed.

(** X6.  The three deadlines always fit an [int64], but the overall one is
    the revision's [TimeoutSeconds] in nanoseconds only for values up to
    9223372036 in size: beyond, the multiplication wraps around.  Within that
    range the deadline has the sign of the field and is [0] only for [0]. *)
Theorem timeoutFunc_wraps (dflt dfltStart dfltIdle : Z)
    (t : Z) (rs idle : option Z) (d dStart dIdle : Z) :
  Timeouts.timeoutFunc dflt dfltStart dfltIdle
    (Some (Timeouts.mkSpec (Some t) rs idle)) = Some (d, dStart, dIdle) →
  int64_ok d ∧ int64_ok dStart ∧ int64_ok dIdle
  ∧ (d = t * Timeouts.Second ↔ Timeouts.fits_duration t)
  ∧ (Timeouts.fits_duration t → (0 < d ↔ 0 < t) ∧ (d = 0 ↔ t = 0)).
Proof.
  unfold Timeouts.timeoutFunc. simpl. intros [= <- <- <-]. split_and!.
  - apply wrap64_range.
  - destruct rs; [apply wrap64_range | by unfold int64_ok].
  - destruct idle; [apply wrap64_range | by unfold int64_ok].
  - apply seconds_exact_iff.
  - intros Hfit. rewrite (seconds_exact t Hfit).
    unfold Timeouts.Second. lia.
Qed.

Lemma timeoutFunc_wraps_witness :
  Timeouts.timeoutFunc 300 0 0
    (Some (Timeouts.mkSpec (Some 9223372037) None (Some 5)))
    = Some (-9223372036709551616, 0, 5000000000)
  ∧ int64_ok (-9223372036709551616).
Proof.
  split; [reflexivity|].
  apply (timeoutFunc_wraps 300 0 0 9223372037 None (Some 5)
           (-9223372036709551616) 0 5000000000).
  reflexivity.
Defined.

(** X7.  A deadline is disabled ([0]) exactly when the revision's field is
    [nil] or a multiple of 2^55 seconds: [0] itself, and the values whose
    nanoseconds wrap around to [0]. *)
Theorem timeoutFunc_disabled (dflt dfltStart dfltIdle : Z)
    (t : Z) (rs idle : option Z) :
  ∃ d dStart dIdle,
    Timeouts.timeoutFunc dflt dfltStart dfltIdle
      (Some (Timeouts.mkSpec (Some t) rs idle)) = Some (d, dStart, dIdle)
    ∧ (d = 0 ↔ (2 ^ 55 | t))
    ∧ (dStart = 0 ↔ ∀ s, rs = Some s → (2 ^ 55 | s))
    ∧ (dIdle = 0 ↔ ∀ s, idle = Some s → (2 ^ 55 | s))
    ∧ (∀ s, Timeouts.fits_duration s → (2 ^ 55 | s) → s = 0).
Proof.
  eexists _, _, _. split; [reflexivity|]. split_and!.
  - apply seconds_zero_iff.
  - destruct rs as [s|]; simpl.
    + rewrite seconds_zero_iff. split; [by intros ? ? [= <-] | by auto].
    + split; [by intros _ ? [=] | done].
  - destruct idle as [s|]; simpl.
    + rewrite seconds_zero_iff. split; [by intros ? ? [= <-] | by auto].
    + split; [by intros _ ? [=] | done].
  - intros s Hfit [q Hq]. unfold Timeouts.fits_duration in Hfit. lia.
Qed.

(** ** The configuration attached to contexts: sharing and allocation *)

Section config_more.
Import Config.
Context {defaults features : Type}.
Variable defaultDefaults : option defaults.
Variable defaultFeatures : option features.
Variable DefaultsConfigName : string.
Variable FeaturesConfigName : string.

Local Abbreviation heap := (@Config.heap defaults features).
Local Abbreviation Store := (gmap string value).
Local Abbreviation FromContextOrDefaults :=
  (Config.FromContextOrDefaults defaultDefaults defaultFeatures).
Local Abbreviation Load :=
  (Config.Load DefaultsConfigName FeaturesConfigName).
Local Abbreviation stored :=
  (Config.stored DefaultsConfigName FeaturesConfigName).
Local Abbreviation store_ok :=
  (Config.store_ok DefaultsConfigName FeaturesConfigName).

(** The two conditional assignments of [FromContextOrDefaults], exactly. *)
Lemma ensure_Defaults_set (cfg : loc) (h : heap) (c : Config) :
  configs h !! cfg = Some c → is_Some (Defaults c) →
  ensure_Defaults defaultDefaults cfg h = Some h.
Proof.
  intros Hc [p Hp]. unfold ensure_Defaults. rewrite Hc. simpl. by rewrite Hp.
Qed.

Lemma ensure_Features_set (cfg : loc) (h : heap) (c : Config) :
  configs h !! cfg = Some c → is_Some (Features c) →
  ensure_Features defaultFeatures cfg h = Some h.
Proof.
  intros Hc [p Hp]. unfold ensure_Features. rewrite Hc. simpl. by rewrite Hp.
Qed.

Lemma ensure_Defaults_nil (cfg : loc) (h : heap) (c : Config) (d : defaults) :
  defaultDefaults = Some d → configs h !! cfg = Some c → Defaults c = None →
  ∃ dl,
    defaultses h !! dl = None
    ∧ ensure_Defaults defaultDefaults cfg h =
        Some {| configs := <[cfg := {| Defaults := Some dl;
                                       Features := Features c |}]>
                             (configs h);
                defaultses := <[dl := d]> (defaultses h);
                featureses := featureses h |}.
Proof.
  intros Hd Hc Hnil. exists (fresh (dom (defaultses h))). split.
  - apply not_elem_of_dom, is_fresh.
  - unfold ensure_Defaults. rewrite Hc. simpl. rewrite Hnil.
    unfold NewDefaultsConfigFromMap_nil. rewrite Hd. simpl.
    unfold set_Defaults. simpl. by rewrite Hc.
Qed.

Lemma ensure_Features_nil (cfg : loc) (h : heap) (c : Config) (f : features) :
  defaultFeatures = Some f → configs h !! cfg = Some c → Features c = None →
  ∃ fl,
    featureses h !! fl = None
    ∧ ensure_Features defaultFeatures cfg h =
        Some {| configs := <[cfg := {| Defaults := Defaults c;
                                       Features := Some fl |}]>
                             (configs h);
                defaultses := defaultses h;
                featureses := <[fl := f]> (featureses h) |}.
Proof.
  intros Hf Hc Hnil. exists (fresh (dom (featureses h))). split.
  - apply not_elem_of_dom, is_fresh.
  - unfold ensure_Features. rewrite Hc. simpl. rewrite Hnil.
    unfold NewFeaturesConfigFromMap_nil. rewrite Hf. simpl.
    unfold set_Features. simpl. by rewrite Hc.
Qed.

(** What the two assignments do to a Config that sits at [cfg]: they fill
    its [nil] fields with new objects and touch nothing else. *)
Lemma ensure_both (cfg : loc) (h : heap) (c : Config)
    (d : defaults) (f : features) :
  defaultDefaults = Some d → defaultFeatures = Some f →
  configs h !! cfg = Some c →
  ∃ h' c',
    ensure_Defaults defaultDefaults cfg h ≫=
      ensure_Features defaultFeatures cfg = Some h'
    ∧ configs h' = <[cfg := c']> (configs h)
    ∧ match Defaults c with
      | Some p => Defaults c' = Some p ∧ defaultses h' = defaultses h
      | None => ∃ dl, Defaults c' = Some dl ∧ defaultses h !! dl = None
                      ∧ defaultses h' = <[dl := d]> (defaultses h)
      end
    ∧ match Features c with
      | Some p => Features c' = Some p ∧ featureses h' = featureses h
      | None => ∃ fl, Features c' = Some fl ∧ featureses h !! fl = None
                      ∧ featureses h' = <[fl := f]> (featureses h)
      end.
Proof.
  intros Hd Hf Hc.
  destruct (Defaults c) as [p|] eqn:Hp.
  - rewrite (ensure_Defaults_set cfg h c) by (rewrite ?Hp; eauto). simpl.
    destruct (Features c) as [q|] eqn:Hq.
    + rewrite (ensure_Features_set cfg h c) by (rewrite ?Hq; eauto).
      exists h, c. rewrite insert_id by done. by split_and!.
    + destruct (ensure_Features_nil cfg h c f Hf Hc Hq) as (fl & Hfl & ->).
      eexists _, _. split; [reflexivity|]. simpl.
      split; [reflexivity|]. simpl. split; [done|]. by exists fl.
  - destruct (ensure_Defaults_nil cfg h c d Hd Hc Hp) as (dl & Hdl & ->).
    simpl.
    destruct (Features c) as [q|] eqn:Hq.
    + erewrite ensure_Features_set;
        [| simpl; apply lookup_insert_eq | simpl; rewrite ?Hq; eauto ].
      eexists _, _. split; [reflexivity|]. simpl.
      split; [reflexivity|]. simpl. split; [by exists dl | done].
    + edestruct (ensure_Features_nil cfg) as (fl & Hfl & ->);
        [exact Hf | simpl; apply lookup_insert_eq | done |].
      simpl. eexists _, _. split; [reflexivity|]. simpl.
      rewrite insert_insert_eq. split; [reflexivity|]. simpl.
      simpl in Hfl. split; [by exists dl | by exists fl].
Qed.

Lemma FromContextOrDefaults_attached (ctx : context) (h : heap) (l : loc) :
  FromContext ctx = Some l →
  FromContextOrDefaults ctx h =
    (ensure_Defaults defaultDefaults l h ≫=
       ensure_Features defaultFeatures l) ≫= (λ h', Some (Some l, h')).
Proof.
  intros Hl. unfold Config.FromContextOrDefaults. rewrite Hl.
  by destruct (ensure_Defaults defaultDefaults l h).
Qed.

(** Without a Config in the context the call builds a Config and the two
    default objects, all three new. *)
Lemma FromContextOrDefaults_detached (ctx : context) (h : heap)
    (d : defaults) (f : features) :
  defaultDefaults = Some d → defaultFeatures = Some f →
  FromContext ctx = None →
  ∃ cfg dl fl,
    configs h !! cfg = None ∧ defaultses h !! dl = None
    ∧ featureses h !! fl = None
    ∧ FromContextOrDefaults ctx h =
        Some (Some cfg,
              {| configs := <[cfg := {| Defaults := Some dl;
                                        Features := Some fl |}]> (configs h);
                 defaultses := <[dl := d]> (defaultses h);
                 featureses := <[fl := f]> (featureses h) |}).
Proof.
  intros Hd Hf Hnone.
  unfold Config.FromContextOrDefaults. rewrite Hnone. unfold new_config.
  set (cfg := fresh (dom (configs h))).
  set (c0 := {| Defaults := None; Features := None |}).
  set (h0 := {| configs := <[cfg := c0]> (configs h);
                defaultses := defaultses h; featureses := featureses h |}).
  assert (Hcfg : configs h !! cfg = None) by apply not_elem_of_dom, is_fresh.
  assert (Hc0 : configs h0 !! cfg = Some c0) by apply lookup_insert_eq.
  destruct (ensure_Defaults_nil cfg h0 c0 d Hd Hc0 eq_refl)
    as (dl & Hdl & ->).
  simpl.
  edestruct (ensure_Features_nil cfg) as (fl & Hfl & ->);
    [exact Hf | simpl; apply lookup_insert_eq | done |].
  simpl in *. exists cfg, dl, fl. split_and!; [done | done | done |].
  by rewrite !insert_insert_eq.
Qed.

(** C9.  [FromContextOrDefaults] never returns [nil]: for every context,
    one without a Config included, it returns a Config whose [Defaults] and
    [Features] are both non-[nil], given that the two constructors of the
    built-in defaults succeed on a [nil] map.  With no Config attached the
    result is a new Config whose two fields hold exactly the built-in
    defaults.  With a Config attached the result is that very Config: a
    field that was [nil] now holds the built-in defaults, a field that was
    set keeps its pointer and its object.  [FromContext] returns [nil] for
    a context without a Config. *)
Theorem FromContextOrDefaults_populated
    (ctx : context) (h : heap) (d : defaults) (f : features) :
  defaultDefaults = Some d → defaultFeatures = Some f →
  (∀ l, FromContext ctx = Some l → is_Some (configs h !! l)) →
  (∃ l h' c,
     FromContextOrDefaults ctx h = Some (Some l, h')
     ∧ configs h' !! l = Some c
     ∧ is_Some (Defaults c) ∧ is_Some (Features c)
     ∧ (FromContext ctx = None →
          configs h !! l = None ∧ observe l h' = Some (Some d, Some f))
     ∧ (∀ l0 c0, FromContext ctx = Some l0 → configs h !! l0 = Some c0 →
          l = l0
          ∧ (Defaults c0 = None →
               Defaults c ≫= (λ p, defaultses h' !! p) = Some d)
          ∧ (Features c0 = None →
               Features c ≫= (λ p, featureses h' !! p) = Some f)
          ∧ (∀ p, Defaults c0 = Some p →
               Defaults c = Some p
               ∧ defaultses h' !! p = defaultses h !! p)
          ∧ (∀ p, Features c0 = Some p →
               Features c = Some p
               ∧ featureses h' !! p = featureses h !! p)))
  ∧ (ctxConfig ctx = None → FromContext ctx = None).
Proof.
  intros Hd Hf Hctx. split; [|by unfold FromContext; intros ->].
  destruct (FromContext ctx) as [l0|] eqn:Hfrom.
  - destruct (Hctx l0 eq_refl) as [c0 Hc0].
    destruct (ensure_both l0 h c0 d f Hd Hf Hc0)
      as (h' & c & Hrun & Hcfg & Hdef & Hfeat).
    exists l0, h', c.
    rewrite (FromContextOrDefaults_attached ctx h l0 Hfrom), Hrun.
    assert (Hdefs : is_Some (Defaults c)
              ∧ (Defaults c0 = None →
                   Defaults c ≫= (λ p, defaultses h' !! p) = Some d)
              ∧ (∀ p, Defaults c0 = Some p →
                   Defaults c = Some p
                   ∧ defaultses h' !! p = defaultses h !! p)).
    { destruct (Defaults c0) as [p|].
      - destruct Hdef as [Hp ->]. rewrite Hp.
        split_and!; [by eauto | done | by intros ? [= <-]].
      - destruct Hdef as (dl & Hp & _ & ->). rewrite Hp. simpl.
        split_and!; [by eauto | | done].
        intros _. by rewrite lookup_insert_eq. }
    assert (Hfeats : is_Some (Features c)
              ∧ (Features c0 = None →
                   Features c ≫= (λ p, featureses h' !! p) = Some f)
              ∧ (∀ p, Features c0 = Some p →
                   Features c = Some p
                   ∧ featureses h' !! p = featureses h !! p)).
    { destruct (Features c0) as [p|].
      - destruct Hfeat as [Hp ->]. rewrite Hp.
        split_and!; [by eauto | done | by intros ? [= <-]].
      - destruct Hfeat as (fl & Hp & _ & ->). rewrite Hp. simpl.
        split_and!; [by eauto | | done].
        intros _. by rewrite lookup_insert_eq. }
    destruct Hdefs as (? & ? & ?), Hfeats as (? & ? & ?).
    split_and!; [done | by rewrite Hcfg, lookup_insert_eq | done | done
                | done |].
    intros l1 c1 [= <-] Hc1. rewrite Hc0 in Hc1. injection Hc1 as <-.
    by split_and!.
  - destruct (FromContextOrDefaults_detached ctx h d f Hd Hf Hfrom)
      as (cfg & dl & fl & Hcfg & Hdl & Hfl & ->).
    eexists cfg, _, _. split; [reflexivity|]. simpl.
    rewrite lookup_insert_eq. split; [reflexivity|]. simpl.
    split_and!; [by eauto | by eauto | | done].
    intros _. split; [done|]. unfold observe. simpl.
    rewrite lookup_insert_eq. simpl. by rewrite !lookup_insert_eq.
Qed.

(** X8.  [ToContext] then [FromContext] gives back the pointer that was
    attached, [nil] included.  For a non-[nil] Config the context also gets
    an [apisconfig.Config] that points to the very same two objects, so
    whatever happens to them later shows through both; attaching [nil]
    leaves the [apisconfig.Config] of the context as it was. *)
Theorem ToContext_attaches (ctx : context) (c : option loc) (h : heap) :
  (∀ l, c = Some l → is_Some (configs h !! l)) →
  ∃ ctx',
    ToContext ctx c h = Some ctx'
    ∧ FromContext ctx' = c
    ∧ (c = None → ctxApis ctx' = ctxApis ctx)
    ∧ (∀ l (h' : heap), c = Some l → configs h' !! l = configs h !! l →
         observe_apis ctx' h' = observe l h').
Proof.
  intros Hc. destruct c as [l|]; simpl.
  - destruct (Hc l eq_refl) as [cv Hcv]. rewrite Hcv. simpl.
    eexists. split; [reflexivity|]. split_and!; [done | done |].
    intros l' h' [= <-] Hsame. unfold observe_apis, observe. simpl.
    by rewrite Hsame, Hcv.
  - eexists. split; [reflexivity|]. by split_and!.
Qed.

(** X9.  When the context carries a Config, [FromContextOrDefaults] returns
    that very object and completes it in place: a [nil] field is set to a
    new object holding the built-in defaults, a field that was set keeps its
    pointer, and no other Config and no existing [Defaults] or [Features]
    object changes. *)
Theorem FromContextOrDefaults_in_place (ctx : context) (h : heap)
    (l : loc) (c : Config) (d : defaults) (f : features) :
  defaultDefaults = Some d → defaultFeatures = Some f →
  FromContext ctx = Some l → configs h !! l = Some c →
  ∃ h' c',
    FromContextOrDefaults ctx h = Some (Some l, h')
    ∧ configs h' !! l = Some c'
    ∧ (∀ l', l' ≠ l → configs h' !! l' = configs h !! l')
    ∧ defaultses h ⊆ defaultses h' ∧ featureses h ⊆ featureses h'
    ∧ (∀ p, Defaults c = Some p → Defaults c' = Some p)
    ∧ (∀ p, Features c = Some p → Features c' = Some p)
    ∧ (Defaults c = None →
         Defaults c' ≫= (λ p, defaultses h' !! p) = Some d)
    ∧ (Features c = None →
         Features c' ≫= (λ p, featureses h' !! p) = Some f).
Proof.
  intros Hd Hf Hl Hc.
  destruct (ensure_both l h c d f Hd Hf Hc)
    as (h' & c' & Hrun & Hcfg & Hdef & Hfeat).
  exists h', c'. rewrite (FromContextOrDefaults_attached ctx h l Hl), Hrun.
  split; [done|]. split; [by rewrite Hcfg, lookup_insert_eq|].
  split; [by intros l' Hne; rewrite Hcfg, lookup_insert_ne|].
  assert (Hd' : defaultses h ⊆ defaultses h'
                ∧ (∀ p, Defaults c = Some p → Defaults c' = Some p)
                ∧ (Defaults c = None →
                     Defaults c' ≫= (λ p, defaultses h' !! p) = Some d)).
  { destruct (Defaults c) as [p|].
    - destruct Hdef as [Hp ->]. split_and!; [done | by intros ? [= <-] | done].
    - destruct Hdef as (dl & Hp & Hfresh & ->). rewrite Hp. simpl.
      split_and!; [by apply insert_subseteq | done |].
      intros _. by rewrite lookup_insert_eq. }
  assert (Hf' : featureses h ⊆ featureses h'
                ∧ (∀ p, Features c = Some p → Features c' = Some p)
                ∧ (Features c = None →
                     Features c' ≫= (λ p, featureses h' !! p) = Some f)).
  { destruct (Features c) as [p|].
    - destruct Hfeat as [Hp ->].
      split_and!; [done | by intros ? [= <-] | done].
    - destruct Hfeat as (fl & Hp & Hfresh & ->). rewrite Hp. simpl.
      split_and!; [by apply insert_subseteq | done |].
      intros _. by rewrite lookup_insert_eq. }
  destruct Hd' as (? & ? & ?), Hf' as (? & ? & ?). by split_and!.
Qed.

(** X10.  With a Config in the context a second call of
    [FromContextOrDefaults] changes nothing and returns the same pointer;
    and a Config whose two fields are set is not written to at all. *)
Theorem FromContextOrDefaults_settles (ctx : context) (h : heap)
    (l : loc) (c : Config) (d : defaults) (f : features) :
  defaultDefaults = Some d → defaultFeatures = Some f →
  FromContext ctx = Some l → configs h !! l = Some c →
  ∃ h',
    FromContextOrDefaults ctx h = Some (Some l, h')
    ∧ FromContextOrDefaults ctx h' = Some (Some l, h')
    ∧ (is_Some (Defaults c) → is_Some (Features c) → h' = h).
Proof.
  intros Hd Hf Hl Hc.
  destruct (ensure_both l h c d f Hd Hf Hc)
    as (h' & c' & Hrun & Hcfg & Hdef & Hfeat).
  exists h'. rewrite !(FromContextOrDefaults_attached ctx _ l Hl), Hrun.
  split; [done|].
  assert (Hc' : configs h' !! l = Some c')
    by by rewrite Hcfg, lookup_insert_eq.
  assert (Hset : is_Some (Defaults c') ∧ is_Some (Features c')).
  { split.
    - destruct (Defaults c); [destruct Hdef as [-> _]; by eauto|].
      destruct Hdef as (dl & -> & _). by eauto.
    - destruct (Features c); [destruct Hfeat as [-> _]; by eauto|].
      destruct Hfeat as (fl & -> & _). by eauto. }
  destruct Hset as [Hsd Hsf]. split.
  - rewrite (ensure_Defaults_set l h' c' Hc' Hsd). simpl.
    by rewrite (ensure_Features_set l h' c' Hc' Hsf).
  - intros Hcd Hcf.
    rewrite (ensure_Defaults_set l h c Hc Hcd) in Hrun. simpl in Hrun.
    rewrite (ensure_Features_set l h c Hc Hcf) in Hrun. by injection Hrun.
Qed.

(** X11.  With no Config in the context every call of
    [FromContextOrDefaults] builds a new Config with new default objects:
    two calls in a row return two different pointers to Configs that share
    no object, both holding the built-in defaults. *)
Theorem FromContextOrDefaults_allocates (ctx : context) (h : heap)
    (d : defaults) (f : features) :
  defaultDefaults = Some d → defaultFeatures = Some f →
  FromContext ctx = None →
  ∃ l1 h1 l2 h2 c1 c2,
    FromContextOrDefaults ctx h = Some (Some l1, h1)
    ∧ FromContextOrDefaults ctx h1 = Some (Some l2, h2)
    ∧ configs h !! l1 = None ∧ l1 ≠ l2
    ∧ configs h2 !! l1 = Some c1 ∧ configs h2 !! l2 = Some c2
    ∧ Defaults c1 ≠ Defaults c2 ∧ Features c1 ≠ Features c2
    ∧ observe l1 h2 = Some (Some d, Some f)
    ∧ observe l2 h2 = Some (Some d, Some f).
Proof.
  intros Hd Hf Hnone.
  destruct (FromContextOrDefaults_detached ctx h d f Hd Hf Hnone)
    as (l1 & dl1 & fl1 & Hl1 & Hdl1 & Hfl1 & Hrun1).
  set (h1 := {| configs := <[l1 := {| Defaults := Some dl1;
                                      Features := Some fl1 |}]> (configs h);
                defaultses := <[dl1 := d]> (defaultses h);
                featureses := <[fl1 := f]> (featureses h) |}) in *.
  destruct (FromContextOrDefaults_detached ctx h1 d f Hd Hf Hnone)
    as (l2 & dl2 & fl2 & Hl2 & Hdl2 & Hfl2 & Hrun2).
  subst h1. simpl in *.
  assert (l1 ≠ l2) by (intros ->; by rewrite lookup_insert_eq in Hl2).
  assert (dl1 ≠ dl2) by (intros ->; by rewrite lookup_insert_eq in Hdl2).
  assert (fl1 ≠ fl2) by (intros ->; by rewrite lookup_insert_eq in Hfl2).
  eexists l1, _, l2, _, _, _.
  split; [exact Hrun1|]. split; [exact Hrun2|]. simpl.
  split; [done|]. split; [done|].
  rewrite lookup_insert_ne by done. rewrite !lookup_insert_eq.
  split; [reflexivity|]. split; [reflexivity|]. simpl.
  split; [congruence|]. split; [congruence|].
  unfold observe. simpl.
  rewrite lookup_insert_ne by done. rewrite !lookup_insert_eq. simpl.
  rewrite !lookup_insert_eq.
  rewrite !(lookup_insert_ne _ dl2 dl1) by done.
  rewrite !(lookup_insert_ne _ fl2 fl1) by done.
  by rewrite !lookup_insert_eq.
Qed.

(** A field of a loaded Config is [nil] and the store has nothing for it,
    or it points to a new object that holds the store's value. *)
Local Abbreviation copied m m' p x :=
  ((p = None ∧ m' = m ∧ x = None)
   ∨ (∃ l v, p = Some l ∧ m !! l = None ∧ m' = <[l := v]> m ∧ x = Some v)).

Lemma copied_read {A} (m m' : gmap loc A) (p : option loc) (x : option A) :
  copied m m' p x →
  p ≫= (λ l, m' !! l) = x ∧ m ⊆ m'
  ∧ (∀ l, p = Some l → m !! l = None ∧ is_Some (m' !! l)).
Proof.
  intros [(-> & -> & ->)|(l & v & -> & Hl & -> & ->)]; simpl.
  - by split_and!.
  - rewrite lookup_insert_eq. split_and!; [done | by apply insert_subseteq |].
    intros ? [= <-]. rewrite lookup_insert_eq. by eauto.
Qed.

Lemma read_mono {A} (m m' : gmap loc A) (p : option loc) :
  (∀ l, p = Some l → is_Some (m !! l)) → m ⊆ m' →
  p ≫= (λ l, m' !! l) = p ≫= (λ l, m !! l).
Proof.
  intros Hp Hsub. destruct p as [l|]; [|done]. simpl.
  destruct (Hp l eq_refl) as [v Hv]. rewrite Hv. by eapply lookup_weaken.
Qed.

Lemma load_Defaults_exact (s : Store) (cfg : loc) (h : heap) (c : Config) :
  store_ok s h → configs h !! cfg = Some c → Defaults c = None →
  ∃ h' c',
    load_Defaults DefaultsConfigName s cfg h = Some h'
    ∧ configs h' = <[cfg := c']> (configs h)
    ∧ Features c' = Features c ∧ featureses h' = featureses h
    ∧ copied (defaultses h) (defaultses h') (Defaults c') (stored s h).1.
Proof.
  intros [Hok _] Hc Hnil. unfold load_Defaults, UntypedLoad, Config.stored.
  simpl.
  destruct (s !! DefaultsConfigName) as [[[l|]| |]|] eqn:Hs;
    try (exists h, c; rewrite insert_id by done;
         split_and!; try done; left; by split_and!).
  - destruct (Hok l eq_refl) as [v Hv]. simpl. rewrite Hv. simpl.
    unfold set_Defaults. simpl. rewrite Hc. simpl.
    eexists _, _. split; [reflexivity|]. simpl.
    split_and!; [reflexivity | done | done |]. right.
    eexists _, v. split_and!; [reflexivity | | reflexivity | done].
    apply not_elem_of_dom, is_fresh.
  - simpl. unfold set_Defaults. rewrite Hc. simpl.
    eexists _, _. split; [reflexivity|]. simpl.
    split_and!; [reflexivity | done | done |]. left. by split_and!.
Qed.

Lemma load_Features_exact (s : Store) (cfg : loc) (h : heap) (c : Config) :
  store_ok s h → configs h !! cfg = Some c → Features c = None →
  ∃ h' c',
    load_Features FeaturesConfigName s cfg h = Some h'
    ∧ configs h' = <[cfg := c']> (configs h)
    ∧ Defaults c' = Defaults c ∧ defaultses h' = defaultses h
    ∧ copied (featureses h) (featureses h') (Features c') (stored s h).2.
Proof.
  intros [_ Hok] Hc Hnil. unfold load_Features, UntypedLoad, Config.stored.
  simpl.
  destruct (s !! FeaturesConfigName) as [[|[l|]|]|] eqn:Hs;
    try (exists h, c; rewrite insert_id by done;
         split_and!; try done; left; by split_and!).
  - destruct (Hok l eq_refl) as [v Hv]. simpl. rewrite Hv. simpl.
    unfold set_Features. simpl. rewrite Hc. simpl.
    eexists _, _. split; [reflexivity|]. simpl.
    split_and!; [reflexivity | done | done |]. right.
    eexists _, v. split_and!; [reflexivity | | reflexivity | done].
    apply not_elem_of_dom, is_fresh.
  - simpl. unfold set_Features. rewrite Hc. simpl.
    eexists _, _. split; [reflexivity|]. simpl.
    split_and!; [reflexivity | done | done |]. left. by split_and!.
Qed.

(** [Load], exactly: one new Config, and one new object for each value the
    store holds. *)
Lemma Load_exact (s : Store) (h : heap) :
  store_ok s h →
  ∃ cfg h' target,
    Load s h = Some (cfg, h')
    ∧ configs h !! cfg = None
    ∧ configs h' = <[cfg := target]> (configs h)
    ∧ copied (defaultses h) (defaultses h') (Defaults target) (stored s h).1
    ∧ copied (featureses h) (featureses h') (Features target) (stored s h).2.
Proof.
  intros Hok. unfold Config.Load, new_config.
  set (cfg := fresh (dom (configs h))).
  set (c0 := {| Defaults := None; Features := None |}).
  set (h0 := {| configs := <[cfg := c0]> (configs h);
                defaultses := defaultses h; featureses := featureses h |}).
  assert (Hcfg : configs h !! cfg = None) by apply not_elem_of_dom, is_fresh.
  assert (Hc0 : configs h0 !! cfg = Some c0) by apply lookup_insert_eq.
  assert (Hok0 : store_ok s h0) by exact Hok.
  destruct (load_Defaults_exact s cfg h0 c0 Hok0 Hc0 eq_refl)
    as (h1 & c1 & -> & Hcfg1 & Hfeat1 & Hfs1 & Hcopy1).
  simpl.
  pose proof (copied_read _ _ _ _ Hcopy1) as (_ & Hsub1 & _).
  assert (Hsubf1 : featureses h0 ⊆ featureses h1) by by rewrite Hfs1.
  destruct (stored_mono DefaultsConfigName FeaturesConfigName
              s h0 h1 Hsub1 Hsubf1 Hok0) as [Hstored1 Hok1].
  assert (Hc1 : configs h1 !! cfg = Some c1)
    by by rewrite Hcfg1, lookup_insert_eq.
  destruct (load_Features_exact s cfg h1 c1 Hok1 Hc1 Hfeat1)
    as (h2 & c2 & -> & Hcfg2 & Hdef2 & Hds2 & Hcopy2).
  simpl. exists cfg, h2, c2. split_and!; [done | done | | |].
  - rewrite Hcfg2, Hcfg1. simpl. by rewrite !insert_insert_eq.
  - rewrite Hds2, Hdef2. exact Hcopy1.
  - rewrite Hstored1, Hfs1 in Hcopy2. exact Hcopy2.
Qed.

(** X12.  A store that holds no [Defaults] and no [Features] (nothing, or a
    value of another type, under the two names) still loads: [Load] returns
    a new Config with both fields [nil] and creates nothing else. *)
Theorem Load_without_entries (s : Store) (h : heap) :
  (∀ p, s !! DefaultsConfigName ≠ Some (VDefaults p)) →
  (∀ p, s !! FeaturesConfigName ≠ Some (VFeatures p)) →
  ∃ cfg,
    configs h !! cfg = None
    ∧ Load s h =
        Some (cfg,
              {| configs := <[cfg := {| Defaults := None;
                                        Features := None |}]> (configs h);
                 defaultses := defaultses h;
                 featureses := featureses h |}).
Proof.
  intros Hnd Hnf. exists (fresh (dom (configs h))).
  split; [apply not_elem_of_dom, is_fresh|].
  unfold Config.Load, new_config, load_Defaults, load_Features, UntypedLoad.
  destruct (s !! DefaultsConfigName) as [[p| |]|] eqn:Hsd;
    [by destruct (Hnd p) | | |];
    destruct (s !! FeaturesConfigName) as [[|p|]|] eqn:Hsf;
    done || by destruct (Hnf p).
Qed.

(** X13.  [Store.ToContext] followed by [FromContextOrDefaults] yields, for
    each of the two fields, the value of the store where the store has one
    and the built-in default where it has none.  The [apisconfig.Config]
    that [ToContext] put in the context is not completed with it: it still
    shows exactly what the store held. *)
Theorem Store_ToContext_then_defaults (s : Store) (ctx : context) (h : heap)
    (d : defaults) (f : features) :
  store_ok s h → defaultDefaults = Some d → defaultFeatures = Some f →
  ∃ ctx' h1 cfg h2,
    Store_ToContext DefaultsConfigName FeaturesConfigName s ctx h
      = Some (ctx', h1)
    ∧ FromContext ctx' = Some cfg
    ∧ FromContextOrDefaults ctx' h1 = Some (Some cfg, h2)
    ∧ observe cfg h2 =
        Some (Some (default d (stored s h).1),
              Some (default f (stored s h).2))
    ∧ observe_apis ctx' h2 = Some (stored s h).
Proof.
  intros Hok Hd Hf.
  destruct (Load_exact s h Hok)
    as (cfg & h1 & target & Hload & Hfresh & Hcfg1 & Hcd & Hcf).
  assert (Htarget : configs h1 !! cfg = Some target)
    by by rewrite Hcfg1, lookup_insert_eq.
  destruct (ensure_both cfg h1 target d f Hd Hf Htarget)
    as (h2 & c' & Hrun & Hcfg2 & Hdef & Hfeat).
  remember (stored s h) as st eqn:Hst. destruct st as [sd sf].
  simpl in Hcd, Hcf.
  unfold Store_ToContext. rewrite Hload. simpl. rewrite Htarget. simpl.
  set (ctx' := {| ctxConfig := Some (Some cfg);
                  ctxApis := Some {| Defaults := Defaults target;
                                     Features := Features target |} |}).
  exists ctx', h1, cfg, h2. split; [reflexivity|]. split; [done|].
  rewrite (FromContextOrDefaults_attached ctx' h1 cfg eq_refl), Hrun.
  split; [done|].
  unfold observe, observe_apis. simpl.
  rewrite Hcfg2, lookup_insert_eq. simpl.
  assert (Hdpart :
    Defaults c' ≫= (λ l, defaultses h2 !! l) = Some (default d sd)
    ∧ Defaults target ≫= (λ l, defaultses h2 !! l) = sd).
  { destruct Hcd as [(Ht & _ & ->)|(l & v & Ht & _ & Hh1 & ->)];
      rewrite Ht in Hdef |- *.
    - destruct Hdef as (dl & -> & _ & ->). simpl.
      by rewrite lookup_insert_eq.
    - destruct Hdef as [-> ->]. simpl. by rewrite Hh1, lookup_insert_eq. }
  assert (Hfpart :
    Features c' ≫= (λ l, featureses h2 !! l) = Some (default f sf)
    ∧ Features target ≫= (λ l, featureses h2 !! l) = sf).
  { destruct Hcf as [(Ht & _ & ->)|(l & v & Ht & _ & Hh1 & ->)];
      rewrite Ht in Hfeat |- *.
    - destruct Hfeat as (fl & -> & _ & ->). simpl.
      by rewrite lookup_insert_eq.
    - destruct Hfeat as [-> ->]. simpl. by rewrite Hh1, lookup_insert_eq. }
  destruct Hdpart as [-> ->], Hfpart as [-> ->]. done.
Qed.

(** X14.  Two calls of [Load] return two different Configs that share no
    object with each other; the second call leaves the result of the first
    as it was, and both show the values of the store. *)
Theorem Load_twice (s : Store) (h : heap) :
  store_ok s h →
  ∃ cfg1 h1 cfg2 h2 c1 c2,
    Load s h = Some (cfg1, h1) ∧ Load s h1 = Some (cfg2, h2)
    ∧ cfg1 ≠ cfg2
    ∧ configs h2 !! cfg1 = Some c1 ∧ configs h2 !! cfg2 = Some c2
    ∧ (∀ p, Defaults c1 = Some p → Defaults c2 ≠ Some p)
    ∧ (∀ p, Features c1 = Some p → Features c2 ≠ Some p)
    ∧ observe cfg1 h2 = Some (stored s h)
    ∧ observe cfg2 h2 = Some (stored s h).
Proof.
  intros Hok.
  destruct (Load_exact s h Hok)
    as (cfg1 & h1 & c1 & Hload1 & Hfresh1 & Hcfg1 & Hcd1 & Hcf1).
  pose proof (copied_read _ _ _ _ Hcd1) as (Hrd1 & Hsubd1 & Hallocd1).
  pose proof (copied_read _ _ _ _ Hcf1) as (Hrf1 & Hsubf1 & Hallocf1).
  destruct (stored_mono DefaultsConfigName FeaturesConfigName
              s h h1 Hsubd1 Hsubf1 Hok) as [Hstored1 Hok1].
  destruct (Load_exact s h1 Hok1)
    as (cfg2 & h2 & c2 & Hload2 & Hfresh2 & Hcfg2 & Hcd2 & Hcf2).
  rewrite Hstored1 in Hcd2, Hcf2.
  pose proof (copied_read _ _ _ _ Hcd2) as (Hrd2 & Hsubd2 & Hallocd2).
  pose proof (copied_read _ _ _ _ Hcf2) as (Hrf2 & Hsubf2 & Hallocf2).
  assert (Hne : cfg1 ≠ cfg2).
  { intros ->. by rewrite Hcfg1, lookup_insert_eq in Hfresh2. }
  assert (Hc1 : configs h2 !! cfg1 = Some c1).
  { rewrite Hcfg2, lookup_insert_ne by done.
    by rewrite Hcfg1, lookup_insert_eq. }
  assert (Hc2 : configs h2 !! cfg2 = Some c2)
    by by rewrite Hcfg2, lookup_insert_eq.
  exists cfg1, h1, cfg2, h2, c1, c2.
  split_and!; [done | done | done | done | done | | | |].
  - intros p Hp1 Hp2.
    destruct (Hallocd1 p Hp1) as [_ [v Hv]].
    destruct (Hallocd2 p Hp2) as [Hnone _]. congruence.
  - intros p Hp1 Hp2.
    destruct (Hallocf1 p Hp1) as [_ [v Hv]].
    destruct (Hallocf2 p Hp2) as [Hnone _]. congruence.
  - unfold observe. rewrite Hc1. simpl.
    rewrite (read_mono (defaultses h1) (defaultses h2))
      by (done || intros l Hl; by apply Hallocd1).
    rewrite (read_mono (featureses h1) (featureses h2))
      by (done || intros l Hl; by apply Hallocf1).
    rewrite Hrd1, Hrf1. by destruct (stored s h).
  - unfold observe. rewrite Hc2. simpl. rewrite Hrd2, Hrf2.
    by destruct (stored s h).
Qed.
End config_more.

Lemma FromContextOrDefaults_populated_witness :
  (∃ l h',
     Config.FromContextOrDefaults (Some 7) (Some tt) Config.Background
       Config.empty_heap = Some (Some l, h')
     ∧ Config.observe l h' = Some (Some 7, Some tt))
  ∧ (∃ h',
       Config.FromContextOrDefaults (Some 7) (Some tt)
         ConfigExamples.attached_ctx ConfigExamples.attached_heap
         = Some (Some 1%positive, h')
       ∧ Config.observe 1%positive h' = Some (Some 7, Some tt)).
Proof.
  split.
  - destruct (FromContextOrDefaults_populated (Some 7) (Some tt)
                Config.Background Config.empty_heap 7 tt eq_refl eq_refl)
      as [(l & h' & c & Hr & _ & _ & _ & Hobs & _) _].
    { intros l Hl. discriminate Hl. }
    exists l, h'. split; [exact Hr | apply Hobs; reflexivity].
  - destruct (FromContextOrDefaults_populated (Some 7) (Some tt)
                ConfigExamples.attached_ctx ConfigExamples.attached_heap
                7 tt eq_refl eq_refl)
      as [(l & h' & c & Hr & Hc & _ & _ & _ & Hatt) _].
    { intros l [= <-]. eexists. reflexivity. }
    destruct (Hatt 1%positive
                {| Config.Defaults := None; Config.Features := None |}
                eq_refl eq_refl) as (-> & Hd & Hf & _).
    exists h'. split; [exact Hr|].
    unfold Config.observe. rewrite Hc. simpl.
    rewrite (Hd eq_refl), (Hf eq_refl). reflexivity.
Defined.

Lemma ToContext_attaches_witness :
  ∃ ctx',
    Config.ToContext Config.Background (Some 1%positive)
      ConfigExamples.attached_heap = Some ctx'
    ∧ Config.FromContext ctx' = Some 1%positive.
Proof.
  destruct (ToContext_attaches Config.Background (Some 1%positive)
              ConfigExamples.attached_heap) as (ctx' & Hto & Hfrom & _).
  { intros l [= <-]. eexists. reflexivity. }
  by exists ctx'.
Defined.

Lemma FromContextOrDefaults_in_place_witness :
  ∃ h' c',
    Config.FromContextOrDefaults (Some 7) (Some tt)
      ConfigExamples.attached_ctx ConfigExamples.attached_heap
      = Some (Some 1%positive, h')
    ∧ Config.configs h' !! 1%positive = Some c'.
Proof.
  destruct (FromContextOrDefaults_in_place (Some 7) (Some tt)
              ConfigExamples.attached_ctx ConfigExamples.attached_heap
              1%positive
              {| Config.Defaults := None; Config.Features := None |} 7 tt
              eq_refl eq_refl eq_refl eq_refl)
    as (h' & c' & Hrun & Hc' & _).
  by exists h', c'.
Defined.

Lemma FromContextOrDefaults_settles_witness :
  ∃ h',
    Config.FromContextOrDefaults (Some 7) (Some tt)
      ConfigExamples.attached_ctx ConfigExamples.attached_heap
      = Some (Some 1%positive, h')
    ∧ Config.FromContextOrDefaults (Some 7) (Some tt)
        ConfigExamples.attached_ctx h' = Some (Some 1%positive, h').
Proof.
  destruct (FromContextOrDefaults_settles (Some 7) (Some tt)
              ConfigExamples.attached_ctx ConfigExamples.attached_heap
              1%positive
              {| Config.Defaults := None; Config.Features := None |} 7 tt
              eq_refl eq_refl eq_refl eq_refl)
    as (h' & Hrun & Hagain & _).
  by exists h'.
Defined.

Lemma FromContextOrDefaults_allocates_witness :
  ∃ l1 h1 l2 h2,
    Config.FromContextOrDefaults (Some 7) (Some tt) Config.Background
      ConfigExamples.attached_heap = Some (Some l1, h1)
    ∧ Config.FromContextOrDefaults (Some 7) (Some tt) Config.Background h1
      = Some (Some l2, h2)
    ∧ l1 ≠ l2.
Proof.
  destruct (FromContextOrDefaults_allocates (Some 7) (Some tt)
              Config.Background ConfigExamples.attached_heap 7 tt
              eq_refl eq_refl eq_refl)
    as (l1 & h1 & l2 & h2 & c1 & c2 & Hr1 & Hr2 & _ & Hne & _).
  by exists l1, h1, l2, h2.
Defined.

Lemma Load_without_entries_witness :
  ∃ cfg h',
    Config.Load "config-defaults" "config-features" ∅
      ConfigExamples.attached_heap = Some (cfg, h')
    ∧ Config.configs ConfigExamples.attached_heap !! cfg = None.
Proof.
  destruct (Load_without_entries "config-defaults" "config-features" ∅
              ConfigExamples.attached_heap) as (cfg & Hfresh & Hload).
  - intros p. by rewrite lookup_empty.
  - intros p. by rewrite lookup_empty.
  - by eexists cfg, _.
Defined.

Lemma Store_ToContext_then_defaults_witness :
  ∃ ctx' h1 cfg h2,
    Config.Store_ToContext "config-defaults" "config-features"
      Config.example_store Config.Background Config.example_heap
      = Some (ctx', h1)
    ∧ Config.FromContextOrDefaults (Some 3) (Some tt) ctx' h1
      = Some (Some cfg, h2)
    ∧ Config.observe cfg h2 = Some (Some 7, Some tt).
Proof.
  destruct (Store_ToContext_then_defaults (Some 3) (Some tt)
              "config-defaults" "config-features" Config.example_store
              Config.Background Config.example_heap 3 tt
              example_store_ok eq_refl eq_refl)
    as (ctx' & h1 & cfg & h2 & Hto & _ & Hrun & Hobs & _).
  exists ctx', h1, cfg, h2. split; [done|]. split; [done|].
  rewrite Hobs. reflexivity.
Defined.

Lemma Load_twice_witness :
  ∃ cfg1 h1 cfg2 h2,
    Config.Load "config-defaults" "config-features" Config.example_store
      Config.example_heap = Some (cfg1, h1)
    ∧ Config.Load "config-defaults" "config-features" Config.example_store
        h1 = Some (cfg2, h2)
    ∧ cfg1 ≠ cfg2.
Proof.
  destruct (Load_twice "config-defaults" "config-features"
              Config.example_store Config.example_heap example_store_ok)
    as (cfg1 & h1 & cfg2 & h2 & c1 & c2 & Hl1 & Hl2 & Hne & _).
  by exists cfg1, h1, cfg2, h2.
Defined.

(** ** Conformance checks on the objects of a Service *)

Section conformance_facts.
Import Conformance.

Lemma at_key_set (m : gmap string string) (k : string) :
  at_key m k ≠ "" ↔ ∃ v, m !! k = Some v ∧ v ≠ "".
Proof.
  unfold at_key. destruct (m !! k) as [v|]; simpl.
  - split; [by eauto | by intros (? & [= <-] & ?)].
  - split; [done | by intros (? & [=] & _)].
Qed.

Lemma first_empty_None (who : string) (anns : gmap string string)
    (keys : list string) :
  first_empty who anns keys = None ↔ ∀ a, a ∈ keys → at_key anns a ≠ "".
Proof.
  induction keys as [|a keys IH]; simpl.
  - split; [by intros _ ? ?%elem_of_nil | done].
  - case_decide as Ha.
    + split; [done|]. intros Hall. destruct (Hall a); [by left | done].
    + rewrite IH. split.
      * intros Hall b [->|Hb]%elem_of_cons; [done | by apply Hall].
      * intros Hall b Hb. apply Hall. by right.
Qed.

Lemma first_empty_Some (who : string) (anns : gmap string string)
    (keys : list string) (err : error) :
  first_empty who anns keys = Some err →
  ∃ a, a ∈ keys ∧ at_key anns a = ""
       ∧ err = errorString (who +:+ " expected " +:+ a +:+
                            " annotation to be set, but was empty").
Proof.
  induction keys as [|a keys IH]; simpl; [done|].
  case_decide as Ha.
  - intros [= <-]. exists a. split; [by left | done].
  - intros Herr. destruct (IH Herr) as (b & Hb & Hempty & ->).
    exists b. split; [by right | done].
Qed.

(** X15.  [validateAnnotations] returns [nil] exactly when the Service, the
    Route and the Configuration each carry a non-empty creator annotation,
    updater annotation and every annotation of [extraKeys]; an annotation
    that is present but empty fails like a missing one.  The error it
    returns otherwise names an object and a key for which this fails, the
    Service before the Route before the Configuration. *)
Theorem validateAnnotations_ok_iff (creator updater : string)
    (service route config : gmap string string) (extraKeys : list string) :
  let keys := creator :: updater :: extraKeys in
  let result :=
    validateAnnotations creator updater service route config extraKeys in
  (result = None ↔
     ∀ a, a ∈ keys → ∀ m, m ∈ [service; route; config] →
       ∃ v, m !! a = Some v ∧ v ≠ "")
  ∧ (∀ err, result = Some err →
       ∃ who m a,
         (who, m) ∈ [("service", service); ("route", route);
                     ("config", config)]
         ∧ a ∈ keys ∧ at_key m a = ""
         ∧ err = errorString (who +:+ " expected " +:+ a +:+
                              " annotation to be set, but was empty"))
  ∧ (∀ a, a ∈ keys → at_key service a = "" →
       ∃ b, result =
              Some (errorString ("service expected " +:+ b +:+
                                 " annotation to be set, but was empty"))).
Proof.
  intros keys result. subst keys result. unfold validateAnnotations.
  change ([creator; updater] ++ extraKeys)
    with (creator :: updater :: extraKeys).
  generalize (creator :: updater :: extraKeys). intros keys.
  split_and!.
  - destruct (first_empty "service" service keys) as [e|] eqn:Hs.
    { split; [done|]. intros Hall.
      apply first_empty_Some in Hs as (a & Ha & Hempty & _).
      destruct (Hall a Ha service ltac:(set_solver)) as (v & Hv & Hne).
      unfold at_key in Hempty. rewrite Hv in Hempty. done. }
    destruct (first_empty "route" route keys) as [e|] eqn:Hr.
    { split; [done|]. intros Hall.
      apply first_empty_Some in Hr as (a & Ha & Hempty & _).
      destruct (Hall a Ha route ltac:(set_solver)) as (v & Hv & Hne).
      unfold at_key in Hempty. rewrite Hv in Hempty. done. }
    rewrite first_empty_None in Hs, Hr. rewrite first_empty_None.
    split.
    + intros Hc a Ha m Hm. apply at_key_set.
      apply elem_of_cons in Hm as [->|Hm]; [by apply Hs|].
      apply elem_of_cons in Hm as [->|Hm]; [by apply Hr|].
      apply list_elem_of_singleton in Hm as ->. by apply Hc.
    + intros Hall a Ha. apply at_key_set. apply Hall; [done|].
      do 2 right. by left.
  - intros err.
    destruct (first_empty "service" service keys) as [e|] eqn:Hs.
    { intros [= <-]. apply first_empty_Some in Hs as (a & Ha & Hempty & ->).
      exists "service", service, a. split_and!; try done. by left. }
    destruct (first_empty "route" route keys) as [e|] eqn:Hr.
    { intros [= <-]. apply first_empty_Some in Hr as (a & Ha & Hempty & ->).
      exists "route", route, a. split_and!; try done. right. by left. }
    intros Hc. apply first_empty_Some in Hc as (a & Ha & Hempty & ->).
    exists "config", config, a. split_and!; try done. do 2 right. by left.
  - intros a Ha Hempty.
    destruct (first_empty "service" service keys) as [e|] eqn:Hs.
    + apply first_empty_Some in Hs as (b & _ & _ & ->). by exists b.
    + rewrite first_empty_None in Hs. by destruct (Hs a Ha).
Qed.
End conformance_facts.

Section domains_facts.
Import Conformance.
Context {U : Type}.

Local Abbreviation record := (λ (m : gmap string U) (t : string * U),
                            <[t.1 := t.2]> m).

Lemma record_other (traffic : list (string * U)) (m : gmap string U)
    (k : string) :
  k ∉ traffic.*1 → foldl record m traffic !! k = m !! k.
Proof.
  revert m. induction traffic as [|[t u] traffic IH]; intros m Hk; [done|].
  change (foldl record m ((t, u) :: traffic))
    with (foldl record (<[t := u]> m) traffic).
  rewrite fmap_cons in Hk. apply not_elem_of_cons in Hk as [Hne Hk].
  rewrite IH by done. by rewrite lookup_insert_ne.
Qed.

Lemma record_is_Some (traffic : list (string * U)) (m : gmap string U)
    (k : string) :
  is_Some (foldl record m traffic !! k) ↔ k ∈ traffic.*1 ∨ is_Some (m !! k).
Proof.
  revert m. induction traffic as [|[t u] traffic IH]; intros m.
  - simpl. split; [by right | by intros [?%elem_of_nil|?]].
  - change (foldl record m ((t, u) :: traffic))
      with (foldl record (<[t := u]> m) traffic).
    rewrite IH, fmap_cons, elem_of_cons. simpl.
    destruct (decide (k = t)) as [->|Hne].
    + rewrite lookup_insert_eq. split; [by eauto | by eauto].
    + rewrite lookup_insert_ne by done. split; intros H.
      * destruct H as [?|?]; by eauto.
      * destruct H as [[?|?]|?]; by eauto.
Qed.

Lemma take_subdomains_inr (m : gmap string U) (pairs : list tagExpectation)
    (urls : list U) (m' : gmap string U) :
  take_subdomains m pairs = inr (urls, m') →
  NoDup (tag <$> pairs)
  ∧ (∀ t, t ∈ tag <$> pairs → is_Some (m !! t))
  ∧ (λ e, m !! tag e) <$> pairs = Some <$> urls
  ∧ (∀ t, m' !! t = if decide (t ∈ tag <$> pairs) then None else m !! t).
Proof.
  revert m urls m'. induction pairs as [|e pairs IH]; intros m urls m'.
  - simpl. intros [= <- <-]. split_and!; [constructor | | done | done].
    by intros t ?%elem_of_nil.
  - simpl. destruct (m !! tag e) as [url|] eqn:Hurl; [|done].
    destruct (take_subdomains (delete (tag e) m) pairs)
      as [err|[urls0 m0]] eqn:Hrest; [done|].
    intros [= <- <-].
    destruct (IH _ _ _ Hrest) as (Hnd & Hdom & Hurls & Hleft).
    assert (Hfresh : tag e ∉ tag <$> pairs).
    { intros Hin. destruct (Hdom _ Hin) as [v Hv].
      by rewrite lookup_delete_eq in Hv. }
    split_and!.
    + by constructor.
    + intros t [->|Ht]%elem_of_cons; [by eauto|].
      destruct (Hdom t Ht) as [v Hv].
      apply lookup_delete_Some in Hv as [_ Hv]. by eauto.
    + rewrite fmap_cons. f_equal. rewrite <- Hurls.
      apply list_fmap_ext. intros i e' He'.
      rewrite lookup_delete_ne; [done|].
      intros Heq. apply Hfresh. rewrite Heq.
      apply list_elem_of_fmap_2. by eapply list_elem_of_lookup_2.
    + intros t. rewrite Hleft.
      destruct (decide (t = tag e)) as [->|Hne].
      * rewrite lookup_delete_eq.
        rewrite (decide_True (P := _ ∈ _ :: _)) by by left.
        by case_decide.
      * rewrite lookup_delete_ne by done.
        destruct (decide (t ∈ tag <$> pairs)) as [Hin|Hin].
        -- rewrite decide_True; [done | by right].
        -- rewrite decide_False; [done|].
           by intros [?|?]%elem_of_cons.
Qed.

Lemma take_subdomains_complete (m : gmap string U)
    (pairs : list tagExpectation) :
  NoDup (tag <$> pairs) →
  (∀ t, t ∈ tag <$> pairs → is_Some (m !! t)) →
  ∃ urls m', take_subdomains m pairs = inr (urls, m').
Proof.
  revert m. induction pairs as [|e pairs IH]; intros m Hnd Hdom.
  - by eexists _, _.
  - rewrite fmap_cons in Hnd. apply NoDup_cons in Hnd as [Hfresh Hnd].
    destruct (Hdom (tag e)) as [url Hurl]; [by left|].
    destruct (IH (delete (tag e) m) Hnd) as (urls & m' & Hrest).
    { intros t Ht. rewrite lookup_delete_ne; [apply Hdom; by right|].
      by intros <-. }
    simpl. rewrite Hurl, Hrest. by eexists _, _.
Qed.

(** X16.  [validateDomains] gets past its tag check, and goes on to probe
    the subdomains, exactly when the expected tags are pairwise different
    and are the tags of the service's traffic targets, none missing and none
    left over; the subdomains are then the URLs recorded for the expected
    tags, in their order.  When several targets carry one tag the URL of the
    last of them is the one recorded. *)
Theorem subdomains_ok_iff (traffic : list (string * U))
    (pairs : list tagExpectation) (urls : list U) :
  (subdomains traffic pairs = inr urls ↔
     NoDup (tag <$> pairs)
     ∧ (∀ t, t ∈ tag <$> pairs ↔ t ∈ traffic.*1)
     ∧ (λ e, tagToTraffic traffic !! tag e) <$> pairs = Some <$> urls)
  ∧ (∀ earlier t u later,
       traffic = earlier ++ (t, u) :: later → t ∉ later.*1 →
       tagToTraffic traffic !! t = Some u).
Proof.
  assert (Hdom : ∀ t, is_Some (tagToTraffic traffic !! t) ↔ t ∈ traffic.*1).
  { intros t. unfold tagToTraffic. rewrite record_is_Some.
    rewrite lookup_empty. split; [by intros [?|[? ?]] | by left]. }
  split.
  - unfold subdomains. split.
    + destruct (take_subdomains (tagToTraffic traffic) pairs)
        as [err|[urls0 left_over]] eqn:Htake; [done|].
      case_decide as Hsize; [done|]. intros [= <-].
      apply map_size_empty_iff in Hsize.
      destruct (take_subdomains_inr _ _ _ _ Htake)
        as (Hnd & Hin & Hurls & Hleft).
      split_and!; [done | | done].
      intros t. split.
      * intros Ht. apply Hdom. by apply Hin.
      * intros Ht. apply Hdom in Ht as [v Hv].
        specialize (Hleft t). rewrite Hsize, lookup_empty in Hleft.
        case_decide; [done | congruence].
    + intros (Hnd & Hset & Hurls).
      destruct (take_subdomains_complete (tagToTraffic traffic) pairs Hnd)
        as (urls0 & left_over & Htake).
      { intros t Ht. apply Hdom. by apply Hset. }
      rewrite Htake.
      destruct (take_subdomains_inr _ _ _ _ Htake)
        as (_ & _ & Hurls0 & Hleft).
      assert (Hempty : left_over = ∅).
      { apply map_eq. intros t. rewrite Hleft, lookup_empty.
        case_decide as Ht; [done|].
        apply eq_None_not_Some. intros Hsome. apply Ht, Hset.
        by apply Hdom. }
      rewrite decide_False.
      * f_equal. apply (inj (fmap Some)). by rewrite <- Hurls0.
      * rewrite Hempty, map_size_empty. by intros H.
  - intros earlier t u later -> Hlater. unfold tagToTraffic.
    rewrite foldl_app.
    change (foldl record (foldl record ∅ earlier) ((t, u) :: later))
      with (foldl record (<[t := u]> (foldl record ∅ earlier)) later).
    rewrite record_other by done. by rewrite lookup_insert_eq.
Qed.

(** The second loop fails at the first expected tag that is not, or no
    longer, in the map. *)
Lemma take_subdomains_inl (m : gmap string U) (pairs : list tagExpectation)
    (err : tagError U) :
  take_subdomains m pairs = inl err ↔
  ∃ before e after,
    pairs = before ++ e :: after
    ∧ err = NoSubdomain (tag e)
    ∧ NoDup (tag <$> before)
    ∧ (∀ t, t ∈ tag <$> before → is_Some (m !! t))
    ∧ (m !! tag e = None ∨ tag e ∈ tag <$> before).
Proof.
  split.
  - revert m. induction pairs as [|e pairs IH]; intros m; simpl; [done|].
    destruct (m !! tag e) as [url|] eqn:Hurl.
    + destruct (take_subdomains (delete (tag e) m) pairs)
        as [err0|[urls0 m0]] eqn:Hrest; [|done].
      intros [= <-].
      destruct (IH _ Hrest)
        as (before & e' & after & -> & -> & Hnd & Hin & Hwhy).
      assert (Hfresh : tag e ∉ tag <$> before).
      { intros [v Hv]%Hin. by rewrite lookup_delete_eq in Hv. }
      exists (e :: before), e', after. rewrite fmap_cons.
      split_and!; [done | done | by apply NoDup_cons | |].
      * intros t [->|Ht]%elem_of_cons; [by eauto|].
        destruct (Hin t Ht) as [v Hv].
        apply lookup_delete_Some in Hv as [_ Hv]. by eauto.
      * destruct Hwhy as [Hnone|Hearlier].
        -- destruct (decide (tag e' = tag e)) as [->|Hne].
           ++ right. apply list_elem_of_here.
           ++ left. by rewrite lookup_delete_ne in Hnone.
        -- right. by apply list_elem_of_further.
    + intros [= <-]. exists [], e, pairs.
      split_and!; [done | done | by apply NoDup_nil | | by left].
      intros t Ht. by apply elem_of_nil in Ht.
  - intros (before & e & after & -> & -> & Hnd & Hin & Hwhy).
    revert m Hin Hwhy.
    induction before as [|b before IH]; intros m Hin Hwhy; simpl.
    + destruct Hwhy as [->|Hno]; [done | by apply elem_of_nil in Hno].
    + rewrite fmap_cons in Hnd, Hin, Hwhy.
      apply NoDup_cons in Hnd as [Hb Hnd].
      destruct (Hin (tag b)) as [url ->]; [apply list_elem_of_here|].
      rewrite (IH Hnd (delete (tag b) m)); [done | |].
      * intros t Ht. destruct (Hin t) as [v Hv];
          [by apply list_elem_of_further|].
        exists v. rewrite lookup_delete_ne; [done|]. by intros <-.
      * destruct Hwhy as [Hnone|[->|Hearlier]%elem_of_cons].
        -- left. destruct (decide (tag b = tag e)) as [->|Hne];
             [apply lookup_delete_eq | by rewrite lookup_delete_ne].
        -- left. apply lookup_delete_eq.
        -- by right.
Qed.

(** X17.  The tag check of [validateDomains] returns the "no subdomain
    found" error for a tag exactly when that tag is the first expected tag
    that no traffic target carries or that repeats an earlier expected
    tag; it returns the "unexpected tags" error exactly when every expected
    tag was found once and traffic tags are left, with the map of the
    traffic tags that nobody expected, each with its URL. *)
Theorem subdomains_errors (traffic : list (string * U))
    (pairs : list tagExpectation) :
  (∀ t, subdomains traffic pairs = inl (NoSubdomain t) ↔
        ∃ before e after,
          pairs = before ++ e :: after
          ∧ tag e = t
          ∧ NoDup (tag <$> before)
          ∧ (∀ t', t' ∈ tag <$> before → t' ∈ traffic.*1)
          ∧ (t ∉ traffic.*1 ∨ t ∈ tag <$> before))
  ∧ (∀ left_over,
       subdomains traffic pairs = inl (UnexpectedTags left_over) ↔
         NoDup (tag <$> pairs)
         ∧ (∀ t, t ∈ tag <$> pairs → t ∈ traffic.*1)
         ∧ left_over ≠ ∅
         ∧ ∀ t, left_over !! t =
                  if decide (t ∈ tag <$> pairs) then None
                  else tagToTraffic traffic !! t).
Proof.
  assert (Hdom : ∀ t, is_Some (tagToTraffic traffic !! t) ↔ t ∈ traffic.*1).
  { intros t. unfold tagToTraffic. rewrite record_is_Some.
    rewrite lookup_empty. split; [by intros [?|[? ?]] | by left]. }
  assert (Hnone : ∀ t, tagToTraffic traffic !! t = None ↔ t ∉ traffic.*1).
  { intros t. rewrite <- Hdom, eq_None_not_Some. done. }
  unfold subdomains. split.
  - intros t. split.
    + destruct (take_subdomains (tagToTraffic traffic) pairs)
        as [err|[urls0 left_over]] eqn:Htake; [|by case_decide].
      intros [= ->].
      apply take_subdomains_inl in Htake
        as (before & e & after & -> & [= ->] & Hnd & Hin & Hwhy).
      exists before, e, after. split_and!; [done | done | done | |].
      * intros t' Ht'. apply Hdom. by apply Hin.
      * destruct Hwhy as [?%Hnone|?]; [by left | by right].
    + intros (before & e & after & -> & <- & Hnd & Hin & Hwhy).
      rewrite (proj2 (take_subdomains_inl (tagToTraffic traffic)
                        (before ++ e :: after) (NoSubdomain (tag e))));
        [done|].
      exists before, e, after. split_and!; [done | done | done | |].
      * intros t' Ht'. apply Hdom. by apply Hin.
      * destruct Hwhy as [?%Hnone|?]; [by left | by right].
  - intros left_over. split.
    + destruct (take_subdomains (tagToTraffic traffic) pairs)
        as [err|[urls0 left_over0]] eqn:Htake.
      * intros [= ->].
        by apply take_subdomains_inl in Htake
          as (? & ? & ? & _ & [=] & _).
      * case_decide as Hsize; [|done]. intros [= <-].
        destruct (take_subdomains_inr _ _ _ _ Htake)
          as (Hnd & Hin & _ & Hleft).
        split_and!; [done | | | done].
        -- intros t Ht. apply Hdom. by apply Hin.
        -- intros ->. by rewrite map_size_empty in Hsize.
    + intros (Hnd & Hin & Hne & Hleft).
      destruct (take_subdomains_complete (tagToTraffic traffic) pairs Hnd)
        as (urls0 & left_over0 & Htake).
      { intros t Ht. apply Hdom. by apply Hin. }
      rewrite Htake.
      destruct (take_subdomains_inr _ _ _ _ Htake) as (_ & _ & _ & Hleft0).
      assert (left_over0 = left_over) as ->.
      { apply map_eq. intros t. by rewrite Hleft, Hleft0. }
      rewrite decide_True; [done|].
      by intros ?%map_size_empty_iff.
Qed.
End domains_facts.
